(** * ecsinrdf: the graft matcher and the two flatteners over RDF statements

    A shallow embedding of the Go packages [schema] (taxonomy mode),
    [integration] (authored mode) and [query] (the graft matcher), together
    with the fragment of gonum's [rdf.Graph] and [rdf.Query] they use. *)

From Stdlib Require Import String Ascii List ZArith Bool Lia.
Import ListNotations.

(* ------------------------------------------------------------------ *)
(** ** Go strings and bytes *)

Module GoStr.

(** A Go string is a sequence of bytes; a Rocq [string] is a sequence of
    8-bit characters, so [[]byte(s)] is the list of their codes. *)
Definition bytes_of (s : string) : list Z :=
  map (fun c => Z.of_nat (nat_of_ascii c)) (list_ascii_of_string s).

Definition dot : ascii := "046"%char.
Definition dq : ascii := "034"%char.
Definition bslash : ascii := "092"%char.

(** [strings.Split(s, ".")]: the pieces between the dots; never empty. *)
Fixpoint split_aux (s : string) (cur : string) : list string :=
  match s with
  | EmptyString => [cur]
  | String c rest =>
      if Ascii.eqb c dot then cur :: split_aux rest EmptyString
      else split_aux rest (cur ++ String c EmptyString)%string
  end.

Definition Split (s : string) : list string := split_aux s EmptyString.

(** [strings.Join(elems, ".")]. *)
Definition Join (elems : list string) : string := String.concat "." elems.

(** [s[:n]] on a slice of strings. *)
Definition prefix (n : nat) (l : list string) : list string := firstn n l.

(** [path[len(path)-1]]. *)
Definition last_of (l : list string) : string := last l EmptyString.

(** The lowercase hexadecimal digit of a nibble. *)
Definition hexdigit (n : Z) : ascii :=
  match String.get (Z.to_nat n) "0123456789abcdef" with
  | Some c => c
  | None => "048"%char
  end.

(** [strconv.Quote] (equivalently [fmt]'s [%q]) on one byte.  The backslash
    and the double quote are escaped, the seven C escapes are used for their
    control characters, other control characters and DEL become [\xNN],
    printable ASCII is kept.  Bytes at or above 0x80 are kept as they are,
    which is what Quote does for printable UTF-8 text. *)
Definition escape1 (c : ascii) : string :=
  let n := Z.of_nat (nat_of_ascii c) in
  let esc (e : ascii) := String bslash (String e EmptyString) in
  if Ascii.eqb c dq then esc dq
  else if Ascii.eqb c bslash then esc bslash
  else if (n =? 7)%Z then esc "097"%char
  else if (n =? 8)%Z then esc "098"%char
  else if (n =? 12)%Z then esc "102"%char
  else if (n =? 10)%Z then esc "110"%char
  else if (n =? 13)%Z then esc "114"%char
  else if (n =? 9)%Z then esc "116"%char
  else if (n =? 11)%Z then esc "118"%char
  else if ((n <? 32) || (n =? 127))%Z then
    String bslash (String "120"%char
      (String (hexdigit (Z.shiftr n 4)) (String (hexdigit (Z.land n 15)) EmptyString)))
  else String c EmptyString.

Fixpoint escape (s : string) : string :=
  match s with
  | EmptyString => EmptyString
  | String c rest => (escape1 c ++ escape rest)%string
  end.

Definition Quote (s : string) : string :=
  String dq (escape s ++ String dq EmptyString)%string.

(** The value of a lowercase hexadecimal digit. *)
Definition unhex (c : ascii) : option Z :=
  let n := Z.of_nat (nat_of_ascii c) in
  if ((48 <=? n) && (n <=? 57))%Z then Some (n - 48)%Z
  else if ((97 <=? n) && (n <=? 102))%Z then Some (n - 87)%Z
  else if ((65 <=? n) && (n <=? 70))%Z then Some (n - 55)%Z
  else None.

(** [strconv.Unquote] on a double-quoted literal, for the escapes [Quote]
    writes; the body ends at the closing quote, which must be last. *)
Fixpoint unquote_body (l : list ascii) : option (list ascii) :=
  match l with
  | [] => None
  | c :: rest =>
      if Ascii.eqb c dq then
        match rest with [] => Some [] | _ => None end
      else if Ascii.eqb c bslash then
        match rest with
        | e :: rest' =>
            let n := Z.of_nat (nat_of_ascii e) in
            let k (d : ascii) :=
              match unquote_body rest' with
              | Some r => Some (d :: r) | None => None end in
            if Ascii.eqb e dq then k dq
            else if Ascii.eqb e bslash then k bslash
            else if (n =? 97)%Z then k (ascii_of_nat 7)
            else if (n =? 98)%Z then k (ascii_of_nat 8)
            else if (n =? 102)%Z then k (ascii_of_nat 12)
            else if (n =? 110)%Z then k (ascii_of_nat 10)
            else if (n =? 114)%Z then k (ascii_of_nat 13)
            else if (n =? 116)%Z then k (ascii_of_nat 9)
            else if (n =? 118)%Z then k (ascii_of_nat 11)
            else if (n =? 120)%Z then
              match rest' with
              | h1 :: h2 :: rest'' =>
                  match unhex h1, unhex h2, unquote_body rest'' with
                  | Some a, Some b, Some r =>
                      Some (ascii_of_nat (Z.to_nat (a * 16 + b)) :: r)
                  | _, _, _ => None
                  end
              | _ => None
              end
            else None
        | [] => None
        end
      else if (Z.of_nat (nat_of_ascii c) =? 10)%Z then None
      else match unquote_body rest with
           | Some r => Some (c :: r) | None => None end
  end.

Definition Unquote (s : string) : option string :=
  match list_ascii_of_string s with
  | c :: rest =>
      if Ascii.eqb c dq then option_map string_of_list_ascii (unquote_body rest)
      else None
  | [] => None
  end.

End GoStr.

(* ------------------------------------------------------------------ *)
(** ** crypto/sha1 and the hex helper of the flatteners *)

Module SHA1.

Definition mask32 : Z := 4294967295.
Definition w32 (x : Z) : Z := Z.land x mask32.
Definition rotl (x n : Z) : Z :=
  w32 (Z.lor (Z.shiftl x n) (Z.shiftr x (32 - n))).

(** Message padding: 0x80, zeros up to 56 mod 64, the bit length in 8
    big-endian bytes. *)
Definition pad (msg : list Z) : list Z :=
  let l := length msg in
  let k := (119 - l mod 64) mod 64 in
  let bits := (Z.of_nat l * 8)%Z in
  msg ++ [128%Z] ++ repeat 0%Z k
      ++ map (fun i => Z.land (Z.shiftr bits (8 * (7 - Z.of_nat i))) 255) (seq 0 8).

Fixpoint blocks (fuel : nat) (l : list Z) : list (list Z) :=
  match fuel with
  | O => []
  | S f => match l with [] => [] | _ => firstn 64 l :: blocks f (skipn 64 l) end
  end.

Definition word_at (b : list Z) (j : nat) : Z :=
  Z.lor (Z.shiftl (nth (4 * j) b 0%Z) 24)
   (Z.lor (Z.shiftl (nth (4 * j + 1) b 0%Z) 16)
    (Z.lor (Z.shiftl (nth (4 * j + 2) b 0%Z) 8) (nth (4 * j + 3) b 0%Z))).

Fixpoint extend (n : nat) (w : list Z) : list Z :=
  match n with
  | O => w
  | S n' =>
      let t := length w in
      let x := Z.lxor (Z.lxor (nth (t - 3) w 0%Z) (nth (t - 8) w 0%Z))
                      (Z.lxor (nth (t - 14) w 0%Z) (nth (t - 16) w 0%Z)) in
      extend n' (w ++ [rotl x 1])
  end.

Definition schedule (b : list Z) : list Z :=
  extend 64 (map (word_at b) (seq 0 16)).

Definition fk (t : nat) (b c d : Z) : Z * Z :=
  if Nat.ltb t 20 then (Z.lor (Z.land b c) (Z.land (Z.lxor b mask32) d), 1518500249%Z)
  else if Nat.ltb t 40 then (Z.lxor b (Z.lxor c d), 1859775393%Z)
  else if Nat.ltb t 60 then
    (Z.lor (Z.lor (Z.land b c) (Z.land b d)) (Z.land c d), 2400959708%Z)
  else (Z.lxor b (Z.lxor c d), 3395469782%Z).

Definition state : Type := (Z * Z * Z * Z * Z)%type.

Definition round (w : list Z) (s : state) (t : nat) : state :=
  let '(a, b, c, d, e) := s in
  let '(f, k) := fk t b c d in
  let temp := w32 (rotl a 5 + f + e + k + nth t w 0%Z) in
  (temp, a, rotl b 30, c, d).

Definition compress (h : state) (blk : list Z) : state :=
  let w := schedule blk in
  let '(a, b, c, d, e) := fold_left (round w) (seq 0 80) h in
  let '(h0, h1, h2, h3, h4) := h in
  (w32 (h0 + a), w32 (h1 + b), w32 (h2 + c), w32 (h3 + d), w32 (h4 + e)).

Definition h_init : state :=
  (1732584193, 4023233417, 2562383102, 271733878, 3285377520)%Z.

Definition word_bytes (x : Z) : list Z :=
  map (fun i => Z.land (Z.shiftr x (8 * (3 - Z.of_nat i))) 255) (seq 0 4).

(** [sha1.Sum]: the 20-byte digest. *)
Definition Sum (msg : list Z) : list Z :=
  let p := pad msg in
  let '(h0, h1, h2, h3, h4) := fold_left compress (blocks (length p) p) h_init in
  word_bytes h0 ++ word_bytes h1 ++ word_bytes h2 ++ word_bytes h3 ++ word_bytes h4.

End SHA1.

(** [hex]: two lowercase hexadecimal digits per byte, high nibble first. *)
Fixpoint hex (data : list Z) : string :=
  match data with
  | [] => EmptyString
  | b :: rest =>
      String (GoStr.hexdigit (Z.shiftr b 4))
        (String (GoStr.hexdigit (Z.land b 15)) (hex rest))
  end.

(** The [hash] closure of both flatteners: [h.Reset(); h.Write([]byte(ns));
    h.Write([]byte(s)); hex(h.Sum(nil))].  The hasher is reset before every
    use, so the closure is a function of its argument. *)
Definition nsHash (ns s : string) : string :=
  hex (SHA1.Sum (GoStr.bytes_of (ns ++ s)%string)).

Example sha1_abc :
  hex (SHA1.Sum (GoStr.bytes_of "abc"%string)) = "a9993e364706816aba3e25717850c26c9cd0d89d"%string.
Proof. vm_compute. reflexivity. Qed.

(* ------------------------------------------------------------------ *)
(** ** gonum's rdf: statements, graphs and queries *)

(** An RDF term is identified by its text ([Term.Value]): [_:label] for a
    blank node, [<iri>] for a predicate, a double-quoted literal. *)
Definition Term := string.

Record Statement := mkStmt { Subject : Term; Predicate : Term; Object : Term }.

Definition stmt_eqb (s t : Statement) : bool :=
  String.eqb (Subject s) (Subject t) && String.eqb (Predicate s) (Predicate t)
  && String.eqb (Object s) (Object t).

(** An [rdf.Graph] holding a deduplicated statement set. *)
Definition Graph := list Statement.

(** [rdf.Deduplicate] followed by [AddStatement] of each statement.
    The blank-node relabelling of [rdf.URDNA2015] that precedes it in
    [main] is left out: it renames blank nodes bijectively and every term
    the matcher looks up or returns is a literal. *)
Fixpoint Deduplicate (l : list Statement) : Graph :=
  match l with
  | [] => []
  | s :: rest => if existsb (stmt_eqb s) rest then Deduplicate rest else s :: Deduplicate rest
  end.

(** [g.TermFor(text)]: the node whose text is [text], if the graph has one.
    gonum's [Graph] keeps subjects and objects as nodes; a predicate is an
    edge label only, so a text that occurs only as a predicate is not
    found. *)
Definition TermFor (g : Graph) (text : string) : option Term :=
  if existsb (fun s => String.eqb (Subject s) text || String.eqb (Object s) text) g
  then Some text else None.

Module Query.

(** An [rdf.Query] holds a sequence of terms.  gonum's [Unique], [And] and
    [Not] sort by internal term id; the model keeps list order instead,
    which changes no membership. *)
Definition t := list Term.

(** [q.Out(fn)]: objects of the statements satisfying [fn] whose subject is
    a term of [q]. *)
Definition Out (g : Graph) (fn : Statement -> bool) (q : t) : t :=
  flat_map (fun x => map Object (filter (fun s => String.eqb (Subject s) x && fn s) g)) q.

(** [q.In(fn)]: subjects of the statements satisfying [fn] whose object is
    a term of [q]. *)
Definition In (g : Graph) (fn : Statement -> bool) (q : t) : t :=
  flat_map (fun x => map Subject (filter (fun s => String.eqb (Object s) x && fn s) g)) q.

Definition Unique (q : t) : t := nodup string_dec q.

Definition mem (x : Term) (p : t) : bool := existsb (String.eqb x) p.

(** [q.And(p)] and [q.Not(p)]: intersection and difference. *)
Definition And (q p : t) : t := filter (fun x => mem x p) (Unique q).
Definition Not (q p : t) : t := filter (fun x => negb (mem x p)) (Unique q).

End Query.

(* ------------------------------------------------------------------ *)
(** ** Package query: the graft matcher (src/unnamed/part_001) *)

Inductive result (A : Type) : Type :=
| Ok (a : A)
| Err (msg : string).
Arguments Ok {A} a.
Arguments Err {A} msg.

Definition p_is_name := "<is:name>"%string.
Definition p_is_path := "<is:path>"%string.
Definition p_is_type := "<is:type>"%string.
Definition p_as_type := "<as:type>"%string.
Definition p_is_published := "<is:published>"%string.
Definition p_external_type := "<external:type>"%string.
Definition p_has_child := "<has:child>"%string.
Definition p_has_multi := "<has:multi>"%string.

(** The literal [`"true"`] of the source. *)
Definition lit_true : string := GoStr.Quote "true".

Definition byUsedType (s : Statement) : bool := String.eqb (Predicate s) p_as_type.
Definition isPublished (s : Statement) : bool :=
  String.eqb (Predicate s) p_is_published && String.eqb (Object s) lit_true.
Definition byName (s : Statement) : bool := String.eqb (Predicate s) p_is_name.
Definition byPath (s : Statement) : bool := String.eqb (Predicate s) p_is_path.
Definition hasChild (s : Statement) : bool := String.eqb (Predicate s) p_has_child.

(** The closures of [walkMatchingPath]. *)
Definition matchingType (typ : Term) (s : Statement) : bool :=
  String.eqb (Predicate s) p_is_type && String.eqb (Object s) typ.
Definition matchingName (quotedName : string) (s : Statement) : bool :=
  String.eqb (Predicate s) p_is_name && String.eqb (Object s) quotedName.

(** One iteration of the loop of [walkMatchingPath] at segment [p]: the new
    query [q] and [r], the deduplicated paths of its terms. *)
Definition step (g : Graph) (q : Query.t) (p : string) : Query.t * list Term :=
  let c := Query.In g hasChild q in
  let quotedName := GoStr.Quote p in
  let q' := Query.And (Query.In g (matchingName quotedName)
                         (Query.Out g (matchingName quotedName) c)) c in
  (q', Query.Unique (Query.Out g byPath q')).

(** The loop [for i := len(path) - 2; i >= 0; i--] over the segments
    [path[len(path)-2], ..., path[0]], with [final] as its accumulator and
    [break] on an empty [r]. *)
Fixpoint walkLoop (g : Graph) (q : Query.t) (segs : list string) (final : list Term)
  : list Term :=
  match segs with
  | [] => final
  | p :: rest =>
      let '(q', r) := step g q p in
      match r with
      | [] => final
      | _ => walkLoop g q' rest r
      end
  end.

(** The type filter at the start of [walkMatchingPath]. *)
Definition seedFilter (g : Graph) (typ : Term) (q : Query.t) : Query.t :=
  Query.And (Query.In g (matchingType typ) (Query.Out g (matchingType typ) q)) q.

Definition walkMatchingPath (g : Graph) (q : Query.t) (typ : Term) (path : list string)
  : list string :=
  walkLoop g (seedFilter g typ q) (rev (removelast path)) [].

(** [fmt.Errorf("found multiple types: %v", typeNames)] on a [[]string]. *)
Definition fmtStrings (l : list string) : string :=
  ("[" ++ String.concat " " l ++ "]")%string.

(** [strconv.Unquote] reports [strconv.ErrSyntax]. *)
Definition errSyntax := "invalid syntax"%string.

Definition CandidateGraftsIn (g : Graph) (full : string) : result (list string) :=
  match TermFor g full with
  | None => Err "not found"
  | Some node =>
      match GoStr.Unquote full with
      | None => Err errSyntax
      | Some full' =>
          let path := GoStr.Split full' in
          let q := Query.In g byPath [node] in
          let typs := Query.Unique (Query.Out g byUsedType
                        (Query.And (Query.In g isPublished (Query.Out g isPublished q)) q)) in
          match typs with
          | [] => Err "no type"
          | [typ] =>
              let q := Query.Not (Query.In g byName (Query.Out g byName q)) q in
              Ok (walkMatchingPath g q typ path)
          | _ => Err ("found multiple types: " ++ fmtStrings typs)
          end
      end
  end.

Definition CandidateGraftsFor (g : Graph) (full typ : string) : result (list string) :=
  match GoStr.Unquote full with
  | None => Err errSyntax
  | Some full' =>
      let path := GoStr.Split full' in
      match TermFor g (GoStr.Quote (GoStr.last_of path)) with
      | None => Err "path not found"
      | Some node =>
          let q := Query.In g byName [node] in
          match TermFor g typ with
          | None => Err "type not found"
          | Some typs => Ok (walkMatchingPath g q typs path)
          end
      end
  end.

(* ------------------------------------------------------------------ *)
(** ** The flatteners (src/unnamed/part_002 and src/query/grafting.go) *)

Notation "x <- a ;; b" :=
  (match a with Some x => b | None => None end) (at level 60, right associativity).

(** [MultiField]: an alternate-index sub-field record. *)
Record MultiField := mkMulti { MType : string; MName : string; MFlatName : string }.

#[local] Set Warnings "-register-all".

(** [schema.Field] restricted to what [schema.Statements] reads; the nested
    [map[string]Field] is an association list (Go's map order is
    unspecified, so only the set of emitted statements is meaningful). *)
Inductive SField := mkSField
  { SType : string; SFields : list (string * SField); SMultiFields : list MultiField }.

(** [integration.Field] restricted to what [integration.Statements] reads;
    [Type_] is the field [Type]. *)
Inductive Field := mkField
  { Name : string; Type_ : string; Fields : list Field; MultiFields : list MultiField;
    External : string }.

(** [_:%s]: the blank-node term of a hash label. *)
Definition blank (h : string) : Term := ("_:" ++ h)%string.

(** [strings.LastIndex(s, ".")], [None] standing for -1. *)
Fixpoint lastIndexDot_aux (s : string) (i : nat) (acc : option nat) : option nat :=
  match s with
  | EmptyString => acc
  | String c rest =>
      lastIndexDot_aux rest (S i) (if Ascii.eqb c GoStr.dot then Some i else acc)
  end.
Definition lastIndexDot (s : string) : option nat := lastIndexDot_aux s 0 None.

(** The synthesized group nodes of [path] in namespace [ns]: the loop
    [for i := range path[1:]] of both flatteners, [groupStmts] writing the
    statements of one iteration. *)
Definition groupRange (path : list string) : list nat := seq 0 (length path - 1).

(** *** [constructTriple] and the [fn] callback

    [constructTriple] formats one N-Quads line with [fmt.Sprintf] and parses
    it with [rdf.ParseNQuad]; the callbacks of [main] log a parse error and
    drop the statement.  Subjects are [_:] and a hexadecimal label, and
    predicates are IRIs written by the format itself, so only a literal
    object can fail to parse.  In the N-Quads grammar a quoted literal
    ([STRING_LITERAL_QUOTE]) is a double quote, then any number of bytes
    other than the double quote, the backslash, LF and CR, or escapes, then
    a double quote; an escape is [ECHAR] (a backslash and one of
    [t b n r f], the double quote, the single quote or the backslash) or
    [UCHAR] ([\u] and four, or [\U] and eight, hexadecimal digits). *)

(** The letter of an [ECHAR]. *)
Definition echar (e : ascii) : bool :=
  existsb (Ascii.eqb e) ["t"%char; "b"%char; "n"%char; "r"%char; "f"%char;
                         GoStr.dq; "'"%char; GoStr.bslash].

Definition hexChar (c : ascii) : bool :=
  match GoStr.unhex c with Some _ => true | None => false end.

(** The rest of a quoted literal after its opening quote, [hexLeft] hex
    digits of a [UCHAR] still to come; the closing quote ends the term. *)
Fixpoint literalOK (hexLeft : nat) (s : string) : bool :=
  match s with
  | EmptyString => false
  | String c rest =>
      match hexLeft with
      | S k => hexChar c && literalOK k rest
      | O =>
          if Ascii.eqb c GoStr.dq then
            match rest with EmptyString => true | _ => false end
          else if Ascii.eqb c GoStr.bslash then
            match rest with
            | EmptyString => false
            | String e rest' =>
                if echar e then literalOK 0 rest'
                else if Ascii.eqb e "u"%char then literalOK 4 rest'
                else if Ascii.eqb e "U"%char then literalOK 8 rest'
                else false
            end
          else if Ascii.eqb c (ascii_of_nat 10) || Ascii.eqb c (ascii_of_nat 13) then false
          else literalOK 0 rest
      end
  end.

(** A term of a formatted line that [rdf.ParseNQuad] accepts: a quoted
    literal must follow the grammar above; blank nodes and IRIs come from
    the format. *)
Definition termParses (t : Term) : bool :=
  match t with
  | String c body => if Ascii.eqb c GoStr.dq then literalOK 0 body else true
  | EmptyString => true
  end.

Definition parses (s : Statement) : bool := termParses (Object s).

(** [fn(constructTriple(...))]: the statement is appended when its line
    parses, and dropped (the error is logged) otherwise. *)
Definition emit (s : Statement) : list Statement := if parses s then [s] else [].


Module Schema.

Definition hash := nsHash "schema".

Definition groupStmts (path : list string) (i : nat) : list Statement :=
  let sub := GoStr.Join (GoStr.prefix (i + 1) path) in
  let hashSub := hash sub in
  let obj := GoStr.Join (GoStr.prefix (i + 2) path) in
  let hashObj := hash obj in
  flat_map emit
    [ mkStmt (blank hashSub) p_is_type (GoStr.Quote "group");
      mkStmt (blank hashSub) p_is_name (GoStr.Quote (nth i path EmptyString));
      mkStmt (blank hashSub) p_is_path (GoStr.Quote sub);
      mkStmt (blank hashSub) p_has_child (blank hashObj) ].

(** One multi-field; [m.FlatName[:strings.LastIndex(m.FlatName, ".")]]
    panics on a flat name without a dot, modelled as [None]. *)
Definition multiStmts (m : MultiField) : option (list Statement) :=
  k <- lastIndexDot (MFlatName m) ;;
  let sub := substring 0 k (MFlatName m) in
  let hashSub := hash sub in
  let hashFlat := hash (MFlatName m) in
  Some (flat_map emit
    [ mkStmt (blank hashSub) p_has_multi (blank hashFlat);
      mkStmt (blank hashFlat) p_is_type (GoStr.Quote (MType m));
      mkStmt (blank hashFlat) p_is_name (GoStr.Quote (MName m));
      mkStmt (blank hashFlat) p_is_path (GoStr.Quote (MFlatName m)) ]).

Fixpoint multisStmts (ms : list MultiField) : option (list Statement) :=
  match ms with
  | [] => Some []
  | m :: rest => a <- multiStmts m ;; b <- multisStmts rest ;; Some (a ++ b)
  end.

(** The statements of one entry [field] (a full dotted path) with a
    non-empty parent. *)
Definition fieldStmts (field : string) (props : SField) : option (list Statement) :=
  let path := GoStr.Split field in
  let hashField := hash field in
  ms <- multisStmts (SMultiFields props) ;;
  Some (flat_map (groupStmts path) (groupRange path)
        ++ flat_map emit
             [ mkStmt (blank hashField) p_is_type (GoStr.Quote (SType props));
               mkStmt (blank hashField) p_is_name (GoStr.Quote (GoStr.last_of path));
               mkStmt (blank hashField) p_is_path (GoStr.Quote field) ]
        ++ ms).

(** The statements of one map entry [field: props] under [parent]: the
    recursive call on [props.Fields] first, then (for a non-empty parent)
    the entry's own statements. *)
Fixpoint entryStmts (parent field : string) (props : SField) {struct props}
  : option (list Statement) :=
  match props with
  | mkSField _ fields _ =>
      children <-
        (fix go (l : list (string * SField)) : option (list Statement) :=
           match l with
           | [] => Some []
           | (f, p) :: rest => a <- entryStmts field f p ;; b <- go rest ;; Some (a ++ b)
           end) fields ;;
      own <- (if String.eqb parent EmptyString then Some [] else fieldStmts field props) ;;
      Some (children ++ own)
  end.

(** [schema.Statements(parent, schema, fn)]: the statements passed to [fn]
    in order, or [None] when the code panics. *)
Fixpoint Statements (parent : string) (schema : list (string * SField))
  : option (list Statement) :=
  match schema with
  | [] => Some []
  | (field, props) :: rest =>
      a <- entryStmts parent field props ;; b <- Statements parent rest ;; Some (a ++ b)
  end.

End Schema.

Module Integration.

Definition hash := nsHash "package".

Definition groupStmts (path : list string) (i : nat) : list Statement :=
  let sub := GoStr.Join (GoStr.prefix (i + 1) path) in
  let hashSub := hash sub in
  let obj := GoStr.Join (GoStr.prefix (i + 2) path) in
  let hashObj := hash obj in
  flat_map emit
    [ mkStmt (blank hashSub) p_is_published lit_true;
      mkStmt (blank hashSub) p_as_type (GoStr.Quote "group");
      mkStmt (blank hashSub) p_is_name (GoStr.Quote (nth i path EmptyString));
      mkStmt (blank hashSub) p_is_path (GoStr.Quote sub);
      mkStmt (blank hashSub) p_has_child (blank hashObj) ].

Definition multiStmts (name : string) (m : MultiField) : list Statement :=
  let hashSub := hash (MName m) in
  let flatName := (name ++ "." ++ MName m)%string in
  let hashFlat := hash flatName in
  flat_map emit
    [ mkStmt (blank hashSub) p_has_multi (blank hashFlat);
      mkStmt (blank hashFlat) p_is_published lit_true;
      mkStmt (blank hashFlat) p_as_type (GoStr.Quote (MType m));
      mkStmt (blank hashFlat) p_is_name (GoStr.Quote (MName m));
      mkStmt (blank hashFlat) p_is_path (GoStr.Quote flatName) ].

(** The leaf statements of the record [props] at full path [name]. *)
Definition leafStmts (name : string) (props : Field) : list Statement :=
  let path := GoStr.Split name in
  let hashField := hash name in
  flat_map emit
    ([ mkStmt (blank hashField) p_is_published lit_true;
       mkStmt (blank hashField) p_is_name (GoStr.Quote (GoStr.last_of path));
       mkStmt (blank hashField) p_is_path (GoStr.Quote name) ]
     ++ (if String.eqb (External props) EmptyString then []
         else [mkStmt (blank hashField) p_external_type (GoStr.Quote (External props))])
     ++ (if String.eqb (Type_ props) EmptyString then []
         else [mkStmt (blank hashField) p_as_type (GoStr.Quote (Type_ props))])).

(** Everything emitted for the record [props] itself, at full path [name]. *)
Definition fieldStmts (name : string) (props : Field) : list Statement :=
  let path := GoStr.Split name in
  flat_map (groupStmts path) (groupRange path)
  ++ leafStmts name props
  ++ flat_map (multiStmts name) (MultiFields props).

(** [props.Name = parent + "." + props.Name] when the parent is not empty. *)
Definition fullName (parent : string) (props : Field) : string :=
  if String.eqb parent EmptyString then Name props
  else (parent ++ "." ++ Name props)%string.

(** The statements of one record under [parent]: the recursive call on
    [props.Fields] at the record's full path, then its own statements. *)
Fixpoint recordStmts (parent : string) (props : Field) {struct props} : list Statement :=
  match props with
  | mkField _ _ fields _ _ =>
      let name := fullName parent props in
      flat_map (recordStmts name) fields ++ fieldStmts name props
  end.

(** [integration.Statements(parent, schema, fn)]: the statements passed to
    [fn], in order. *)
Definition Statements (parent : string) (schema : list Field) : list Statement :=
  flat_map (recordStmts parent) schema.

(** The records the recursion visits, each with the full path it gives it. *)
Fixpoint recordsOf (parent : string) (props : Field) {struct props} : list (string * Field) :=
  match props with
  | mkField _ _ fields _ _ =>
      let name := fullName parent props in
      (name, props) :: flat_map (recordsOf name) fields
  end.

Definition processed (parent : string) (schema : list Field) : list (string * Field) :=
  flat_map (recordsOf parent) schema.

End Integration.

(* ------------------------------------------------------------------ *)
(** ** main: accumulating the statements and loading the graph *)

Fixpoint taxonomyStatements (docs : list (list (string * SField))) : option (list Statement) :=
  match docs with
  | [] => Some []
  | d :: rest => a <- Schema.Statements EmptyString d ;; b <- taxonomyStatements rest ;; Some (a ++ b)
  end.

Definition authoredStatements (docs : list (list Field)) : list Statement :=
  flat_map (Integration.Statements EmptyString) docs.

(** The graph [main] builds from the taxonomy documents and the authored
    documents ([None] when flattening panics). *)
Definition buildGraph (taxonomy : list (list (string * SField))) (authored : list (list Field))
  : option Graph :=
  t <- taxonomyStatements taxonomy ;;
  Some (Deduplicate (t ++ authoredStatements authored)).

Module Scenario.
Local Open Scope string_scope.

(** Scenario 1 of the specification: the taxonomy has [registry.path] of
    type keyword, the authored document has the field [registry.path] of
    type keyword. *)
Definition taxonomy1 : list (string * SField) :=
  [("registry", mkSField "group" [("registry.path", mkSField "keyword" [] [])] [])].

Definition authored1 : list Field := [mkField "registry.path" "keyword" [] [] ""].

Definition graph1 : Graph :=
  match buildGraph [taxonomy1] [authored1] with Some g => g | None => [] end.

(** Scenario 3 graph with a text-typed authored field, so that the literal
    of the type [text] is a term of the graph. *)
Definition authored3 : list Field :=
  [mkField "registry.path" "keyword" [] [] ""; mkField "message" "text" [] [] ""].

Definition graph3 : Graph :=
  match buildGraph [taxonomy1] [authored3] with Some g => g | None => [] end.

(** A path whose last segment repeats an earlier one: the taxonomy has
    [a.a.a] of type keyword, the authored document has [a.a] of type keyword. *)
Definition taxonomyAA : list (string * SField) :=
  [("a", mkSField "group" [("a.a.a", mkSField "keyword" [] [])] [])].

Definition authoredAA : list Field := [mkField "a.a" "keyword" [] [] ""].

Definition graphAA : Graph :=
  match buildGraph [taxonomyAA] [authoredAA] with Some g => g | None => [] end.

(** An authored field [message] with the alternate index [raw]. *)
Definition authoredMulti : list Field :=
  [mkField "message" "text" [] [mkMulti "keyword" "raw" ""] ""].

End Scenario.

(* ------------------------------------------------------------------ *)
(** ** Decision procedures over a concrete graph *)

Definition hasStmt (g : Graph) (s : Statement) : bool := existsb (stmt_eqb s) g.

(** Some node of [g] has the name literal [name] and the declared type
    [typ] recorded with [is:type]. *)
Definition namedTyped (g : Graph) (name typ : Term) : bool :=
  existsb (fun s => String.eqb (Predicate s) p_is_name && String.eqb (Object s) name
                    && hasStmt g (mkStmt (Subject s) p_is_type typ)) g.

(** Some node of [g] has the name literal [name]. *)
Definition named (g : Graph) (name : Term) : bool :=
  existsb (fun s => String.eqb (Predicate s) p_is_name && String.eqb (Object s) name) g.

(** Some node of [g] has the path literal [path]. *)
Definition pathed (g : Graph) (path : Term) : bool :=
  existsb (fun s => String.eqb (Predicate s) p_is_path && String.eqb (Object s) path) g.

(** The text [t] is a node of [g]: some statement has it as subject or
    object. *)
Definition occurs (g : Graph) (t : Term) : Prop :=
  exists s, List.In s g /\ (Subject s = t \/ Object s = t).

(** No blank node label of the taxonomy statements [T] is a subject or an
    object of the authored statements [A]: the two hash namespaces do not
    collide on these inputs. *)
Definition labelsDisjoint (T A : list Statement) : bool :=
  forallb (fun s => forallb (fun s' => negb (String.eqb (Subject s) (Subject s'))
                                       && negb (String.eqb (Subject s) (Object s'))) A) T.

(** The digits of [hex]. *)
Definition hexDigits : string := "0123456789abcdef"%string.

(** [s] is in the statements of one taxonomy entry, all of which are in
    [out]. *)
Definition fromBlock (out : list Statement) (s : Statement) : Prop :=
  exists field props l, Schema.fieldStmts field props = Some l /\ List.In s l /\ incl l out.

(** [n] has a type recorded with [is:type]. *)
Definition typedNode (g : Graph) (n : Term) : Prop :=
  exists t, List.In (mkStmt n p_is_type t) g.

(** The parent of an [is:type]-typed child is [is:type]-typed. *)
Definition childTypedClosed (g : Graph) : Prop :=
  forall s, List.In s g -> Predicate s = p_has_child ->
    typedNode g (Object s) -> typedNode g (Subject s).

(** A path of [g] whose node is [is:type]-typed. *)
Definition typedPath (g : Graph) (p : Term) : Prop :=
  exists n, List.In (mkStmt n p_is_path p) g /\ typedNode g n.

Module Scenario1.
(** The taxonomy statements of scenario 1. *)
Definition tax1 : list Statement :=
  match taxonomyStatements [Scenario.taxonomy1] with Some t => t | None => [] end.
End Scenario1.

(* ------------------------------------------------------------------ *)
(** ** [PublishedFieldsIn] and the report loop of [main] *)

(** [query.PublishedFieldsIn]: [g.TermFor(`"true"`)], then
    [g.Query(node).In(isPublished).Unique()]; the empty query when the
    literal is no term of the graph. *)
Definition PublishedFieldsIn (g : Graph) : Query.t :=
  match TermFor g lit_true with
  | None => []
  | Some node => Query.Unique (Query.In g isPublished [node])
  end.

(** The [notGroup] closure of [main]. *)
Definition notGroup (s : Statement) : bool :=
  String.eqb (Predicate s) p_as_type && negb (String.eqb (Object s) (GoStr.Quote "group")).

(** [p := PublishedFieldsIn(g); p = p.Out(notGroup).In(notGroup).And(p)]. *)
Definition reportedFields (g : Graph) : Query.t :=
  let p := PublishedFieldsIn g in
  Query.And (Query.In g notGroup (Query.Out g notGroup p)) p.

Definition tab : string := String "009"%char EmptyString.

(** The lines printed for one path [n] with the result of
    [CandidateGraftsIn(g, n.Value)]; on an error [cands] is nil. *)
Definition reportPath (n : Term) (r : result (list string)) : list string :=
  let '(cands, err) := match r with Ok c => (c, None) | Err e => ([], Some e) end in
  let shown := match cands, err with [], None => false | _, _ => true end in
  (if shown then [n] else [])
  ++ (match err with Some e => [(tab ++ n ++ ": " ++ e)%string] | None => [] end)
  ++ map (fun c => (tab ++ c)%string) cands
  ++ (if shown then [EmptyString] else []).

(** The paths of the field [f]: [g.Query(f).Out(is:path)]. *)
Definition pathsOf (g : Graph) (f : Term) : Query.t := Query.Out g byPath [f].

(** The lines [main] prints when no query is given. *)
Definition mainReport (g : Graph) : list string :=
  flat_map (fun f => flat_map (fun n => reportPath n (CandidateGraftsIn g n)) (pathsOf g f))
           (reportedFields g).

(* ------------------------------------------------------------------ *)
(** ** The earlier matcher of src/query/grafting.go, taking unquoted
    arguments *)

Module Legacy.

(** One iteration of its loop:
    [q = c.Out(is:name == quotedName).In(byName).And(c)]. *)
Definition step (g : Graph) (q : Query.t) (p : string) : Query.t * list Term :=
  let quotedName := GoStr.Quote p in
  let c := Query.In g hasChild q in
  let q' := Query.And (Query.In g byName (Query.Out g (matchingName quotedName) c)) c in
  (q', Query.Unique (Query.Out g byPath q')).

Fixpoint walkLoop (g : Graph) (q : Query.t) (segs : list string) (final : list Term)
  : list Term :=
  match segs with
  | [] => final
  | p :: rest =>
      let '(q', r) := step g q p in
      match r with
      | [] => final
      | _ => walkLoop g q' rest r
      end
  end.

(** [q = q.And(q.Out(matchingType).In(matchingType))]. *)
Definition seedFilter (g : Graph) (typ : Term) (q : Query.t) : Query.t :=
  Query.And q (Query.In g (matchingType typ) (Query.Out g (matchingType typ) q)).

Definition walkMatchingPath (g : Graph) (q : Query.t) (typ : Term) (path : list string)
  : list string :=
  walkLoop g (seedFilter g typ q) (rev (removelast path)) [].

Definition CandidateGraftsFor (g : Graph) (full typ : string) : result (list string) :=
  let path := GoStr.Split full in
  match TermFor g (GoStr.Quote (GoStr.last_of path)) with
  | None => Err "path not found"
  | Some node =>
      let quotedTyp := GoStr.Quote typ in
      let q := Query.In g byName [node] in
      match TermFor g quotedTyp with
      | None => Err "typ not found"
      | Some typs => Ok (walkMatchingPath g q typs path)
      end
  end.

Section WithTermFormat.

(** [fmt]'s [%v] of a [[]rdf.Term]: it prints each term's value and
    internal id, which this model does not track. *)
Variable fmtTerms : list Term -> string.

Definition CandidateGraftsIn (g : Graph) (full : string) : result (list string) :=
  let path := GoStr.Split full in
  match TermFor g (GoStr.Quote full) with
  | None => Err "not found"
  | Some node =>
      let q := Query.In g byPath [node] in
      let typs := Query.Unique (Query.Out g byUsedType
                    (Query.And q (Query.In g isPublished (Query.Out g isPublished q)))) in
      match typs with
      | [] => Err "no type"
      | [typ] =>
          let q := Query.Not (Query.In g byName (Query.Out g byName q)) q in
          Ok (walkMatchingPath g q typ path)
      | _ => Err ("found multiple types: " ++ fmtTerms typs)
      end
  end.

End WithTermFormat.

End Legacy.

(* ------------------------------------------------------------------ *)
(** ** [fakeField] (src/fake.go) *)

(** The statements of a fake package field [full] of type [typ]: the group
    loop of [packageGraph], then the leaf with an unconditional [as:type]. *)
Definition fakeField (full typ : string) : list Statement :=
  let path := GoStr.Split full in
  let hashField := Integration.hash full in
  flat_map (Integration.groupStmts path) (groupRange path)
  ++ flat_map emit
       [ mkStmt (blank hashField) p_is_published lit_true;
         mkStmt (blank hashField) p_is_name (GoStr.Quote (GoStr.last_of path));
         mkStmt (blank hashField) p_is_path (GoStr.Quote full);
         mkStmt (blank hashField) p_as_type (GoStr.Quote typ) ].

(* ------------------------------------------------------------------ *)
(** ** The entries visited by the taxonomy flattener *)

(** The [(parent, field, props.MultiFields)] of every entry for which
    [schema.Statements] runs the loop body, children first as the code
    does. *)
Fixpoint entriesOf (parent field : string) (props : SField) {struct props}
  : list (string * string * list MultiField) :=
  match props with
  | mkSField _ fields ms =>
      (fix go (l : list (string * SField)) : list (string * string * list MultiField) :=
         match l with
         | [] => []
         | (f, p) :: rest => entriesOf field f p ++ go rest
         end) fields ++ [(parent, field, ms)]
  end.

Definition schemaEntries (parent : string) (schema : list (string * SField))
  : list (string * string * list MultiField) :=
  flat_map (fun '(f, p) => entriesOf parent f p) schema.

(** Two queries holding the same terms, in any order. *)
Definition sameMembers (a b : list Term) : Prop := forall x, List.In x a <-> List.In x b.

(** The number of dots of [s]. *)
Fixpoint dots (s : string) : nat :=
  match s with
  | EmptyString => 0
  | String c rest => (if Ascii.eqb c GoStr.dot then 1 else 0) + dots rest
  end.


(* ------------------------------------------------------------------ *)
(** * Proofs *)

(* ------------------------------------------------------------------ *)
(** ** [constructTriple]: which statements are kept *)

Module EmitFacts.

Lemma in_emits s l : List.In s (flat_map emit l) <-> List.In s l /\ parses s = true.
Proof.
  rewrite in_flat_map. unfold emit. split.
  - intros (x & Hx & Hs). destruct (parses x) eqn:E; [|destruct Hs].
    destruct Hs as [<-|[]]. auto.
  - intros [Hs Hp]. exists s. rewrite Hp. simpl. auto.
Qed.







(** Split a membership hypothesis on which emitted statements parse. *)
Ltac emit_cases H :=
  unfold emit in H;
  repeat match type of H with context [if parses ?x then _ else _] => destruct (parses x) end.

End EmitFacts.

(* ------------------------------------------------------------------ *)
(** ** Query algebra: membership lemmas *)

Module QueryFacts.

Lemma in_Out (g : Graph) fn q x :
  List.In x (Query.Out g fn q) <->
  exists s, List.In s g /\ fn s = true /\ List.In (Subject s) q /\ Object s = x.
Proof.
  unfold Query.Out. rewrite in_flat_map. split.
  - intros (y & Hy & Hx). apply in_map_iff in Hx as (s & <- & Hs).
    apply filter_In in Hs as (Hs & Hb). apply andb_true_iff in Hb as (He & Hf).
    apply String.eqb_eq in He. subst y. eauto.
  - intros (s & Hs & Hf & Hq & <-). exists (Subject s). split; [exact Hq|].
    apply in_map. apply filter_In. split; [exact Hs|].
    rewrite String.eqb_refl, Hf. reflexivity.
Qed.

Lemma in_In (g : Graph) fn q x :
  List.In x (Query.In g fn q) <->
  exists s, List.In s g /\ fn s = true /\ List.In (Object s) q /\ Subject s = x.
Proof.
  unfold Query.In. rewrite in_flat_map. split.
  - intros (y & Hy & Hx). apply in_map_iff in Hx as (s & <- & Hs).
    apply filter_In in Hs as (Hs & Hb). apply andb_true_iff in Hb as (He & Hf).
    apply String.eqb_eq in He. subst y. eauto.
  - intros (s & Hs & Hf & Hq & <-). exists (Object s). split; [exact Hq|].
    apply in_map. apply filter_In. split; [exact Hs|].
    rewrite String.eqb_refl, Hf. reflexivity.
Qed.

Lemma in_Unique q x : List.In x (Query.Unique q) <-> List.In x q.
Proof. apply nodup_In. Qed.

Lemma NoDup_Unique q : NoDup (Query.Unique q).
Proof. apply NoDup_nodup. Qed.

Lemma mem_true x p : Query.mem x p = true <-> List.In x p.
Proof.
  unfold Query.mem. rewrite existsb_exists. split.
  - intros (y & Hy & He). apply String.eqb_eq in He. subst. exact Hy.
  - intros H. exists x. split; [exact H | apply String.eqb_refl].
Qed.

Lemma in_And q p x : List.In x (Query.And q p) <-> List.In x q /\ List.In x p.
Proof.
  unfold Query.And. rewrite filter_In, in_Unique, mem_true. tauto.
Qed.

Lemma in_Not q p x : List.In x (Query.Not q p) <-> List.In x q /\ ~ List.In x p.
Proof.
  unfold Query.Not. rewrite filter_In, in_Unique, negb_true_iff.
  split; intros [H1 H2]; split; auto.
  - intros H. apply mem_true in H. congruence.
  - destruct (Query.mem x p) eqn:E; [|reflexivity].
    exfalso. apply H2. apply mem_true. exact E.
Qed.

Lemma Out_nil g fn : Query.Out g fn [] = [].
Proof. reflexivity. Qed.

Lemma In_nil g fn : Query.In g fn [] = [].
Proof. reflexivity. Qed.

Lemma And_nil p : Query.And [] p = [].
Proof. reflexivity. Qed.

End QueryFacts.

(* ------------------------------------------------------------------ *)
(** ** The graft matcher: general facts *)

Module MatcherFacts.
Import QueryFacts.

Lemma stmt_eqb_true s t : stmt_eqb s t = true <-> s = t.
Proof.
  destruct s as [a b c], t as [a' b' c']. unfold stmt_eqb. simpl.
  rewrite !andb_true_iff, !String.eqb_eq. split.
  - intros [[-> ->] ->]. reflexivity.
  - intros H. injection H as -> -> ->. auto.
Qed.

Lemma hasStmt_true g s : hasStmt g s = true <-> List.In s g.
Proof.
  unfold hasStmt. rewrite existsb_exists. split.
  - intros (t & Ht & He). apply stmt_eqb_true in He. subst. exact Ht.
  - intros H. exists s. split; [exact H | apply stmt_eqb_true; reflexivity].
Qed.

Lemma TermFor_Some g t x : TermFor g t = Some x -> x = t.
Proof. unfold TermFor. destruct existsb; congruence. Qed.

Lemma TermFor_absent g t : ~ occurs g t -> TermFor g t = None.
Proof.
  intros H. unfold TermFor. destruct existsb eqn:E; [|reflexivity].
  exfalso. apply H. apply existsb_exists in E as (s & Hs & Hb).
  exists s. split; [exact Hs|].
  apply orb_true_iff in Hb as [Hb|Hb]; apply String.eqb_eq in Hb; auto.
Qed.

Lemma TermFor_None g t : TermFor g t = None -> ~ occurs g t.
Proof.
  unfold TermFor. destruct existsb eqn:E; [discriminate|]. intros _ (s & Hs & Ho).
  assert (existsb (fun s => String.eqb (Subject s) t || String.eqb (Object s) t) g = true)
    as E'.
  { apply existsb_exists. exists s. split; [exact Hs|].
    destruct Ho as [Ho|Ho]; rewrite Ho, String.eqb_refl; simpl;
      rewrite ?orb_true_r; reflexivity. }
  congruence.
Qed.

Lemma TermFor_occurs g t : occurs g t -> TermFor g t = Some t.
Proof.
  intros H. destruct (TermFor g t) as [x|] eqn:E.
  - apply TermFor_Some in E. subst. reflexivity.
  - exfalso. exact (TermFor_None _ _ E H).
Qed.

Lemma TermFor_found g t : TermFor g t <> None -> occurs g t.
Proof. intros H. destruct (TermFor g t) eqn:E; [|congruence]. clear H.
  unfold TermFor in E. destruct existsb eqn:Ex; [|discriminate].
  apply existsb_exists in Ex as (s & Hs & Hb). exists s. split; [exact Hs|].
  apply orb_true_iff in Hb as [Hb|Hb]; apply String.eqb_eq in Hb; auto.
Qed.

Lemma namedTyped_false g name typ :
  namedTyped g name typ = false ->
  ~ exists n, List.In (mkStmt n p_is_name name) g /\ List.In (mkStmt n p_is_type typ) g.
Proof.
  intros H (n & H1 & H2). unfold namedTyped in H.
  assert (E : existsb (fun s => String.eqb (Predicate s) p_is_name && String.eqb (Object s) name
                    && hasStmt g (mkStmt (Subject s) p_is_type typ)) g = true).
  { apply existsb_exists. exists (mkStmt n p_is_name name). split; [exact H1|]. simpl.
    rewrite !String.eqb_refl. simpl. apply hasStmt_true. exact H2. }
  congruence.
Qed.

Lemma list_empty {A} (l : list A) : (forall x, ~ List.In x l) -> l = [].
Proof. destruct l as [|a l]; [reflexivity|]. intros H. exfalso. apply (H a). left. reflexivity. Qed.

Lemma step_nil g p : step g [] p = ([], []).
Proof. reflexivity. Qed.

Lemma walkLoop_cons g q p rest final :
  walkLoop g q (p :: rest) final =
  let '(q', r) := step g q p in match r with [] => final | _ => walkLoop g q' rest r end.
Proof. reflexivity. Qed.

Lemma walkLoop_nil g segs final : walkLoop g [] segs final = final.
Proof. destruct segs; reflexivity. Qed.

Lemma in_seedFilter g typ q x :
  List.In x (seedFilter g typ q) <-> List.In x q /\ List.In (mkStmt x p_is_type typ) g.
Proof.
  unfold seedFilter. rewrite in_And, in_In. split.
  - intros [(s & Hs & Hm & _ & Hx) Hq]. split; [exact Hq|].
    destruct s as [a b c]; unfold matchingType in Hm; simpl in *.
    apply andb_true_iff in Hm as [Hb Hc]. apply String.eqb_eq in Hb, Hc. subst. exact Hs.
  - intros [Hq Hs]. split; [|exact Hq].
    exists (mkStmt x p_is_type typ). unfold matchingType; simpl.
    rewrite !String.eqb_refl. repeat split; auto.
    apply in_Out. exists (mkStmt x p_is_type typ). unfold matchingType; simpl.
    rewrite !String.eqb_refl. auto.
Qed.

Lemma walk_no_seed g q typ path :
  seedFilter g typ q = [] -> walkMatchingPath g q typ path = [].
Proof. intros H. unfold walkMatchingPath. rewrite H. apply walkLoop_nil. Qed.

Lemma segments_app (pre : list string) (p lst : string) : rev (removelast (pre ++ [p; lst])) = p :: rev pre.
Proof.
  rewrite removelast_app by discriminate. simpl. rewrite rev_app_distr. reflexivity.
Qed.

(** C2 (as amended): the suffix walk stops at the first segment whose step
    has no path, returning the result of the last non-empty level; a later
    empty step never erases an earlier non-empty result; but the seed level
    (the type-filtered leaves) has no result of its own: when the first
    parent step is empty, or the path has a single segment, the walk returns
    the empty list. *)
Theorem walk_stops_at_empty_level (g : Graph) :
  (forall q p rest final,
      snd (step g q p) = [] -> walkLoop g q (p :: rest) final = final) /\
  (forall q p rest final,
      snd (step g q p) <> [] ->
      walkLoop g q (p :: rest) final = walkLoop g (fst (step g q p)) rest (snd (step g q p))) /\
  (forall q segs final, final <> [] -> walkLoop g q segs final <> []) /\
  (forall q typ pre p lst,
      snd (step g (seedFilter g typ q) p) = [] -> walkMatchingPath g q typ (pre ++ [p; lst]) = []) /\
  (forall q typ lst, walkMatchingPath g q typ [lst] = []).
Proof.
  split; [|split; [|split; [|split]]].
  - intros q p rest final H. rewrite walkLoop_cons.
    destruct (step g q p) as [q' r]. simpl in H. subst. reflexivity.
  - intros q p rest final H. rewrite walkLoop_cons. destruct (step g q p) as [q' r]. simpl in *.
    destruct r; [congruence | reflexivity].
  - intros q segs. revert q. induction segs as [|p rest IH]; intros q final Hf.
    + exact Hf.
    + rewrite walkLoop_cons. destruct (step g q p) as [q' r]. destruct r as [|x r'].
      * exact Hf.
      * apply IH. discriminate.
  - intros q typ pre p lst H. unfold walkMatchingPath. rewrite segments_app. rewrite walkLoop_cons.
    destruct (step g (seedFilter g typ q) p) as [q' r]. simpl in H. subst. reflexivity.
  - intros q typ lst. reflexivity.
Qed.

(** C8 (as amended): when the quoted last segment of the path is a node
    of the graph, then if the type literal is a node of the graph too and
    no node with that name records that type with [is:type],
    [CandidateGraftsFor] returns the empty list and no error; if the type
    literal is no node of the graph, it returns [type not found]. *)
Theorem graft_for_no_typed_leaf (g : Graph) (full full' typ : string)
  (Hq : GoStr.Unquote full = Some full')
  (Hname : occurs g (GoStr.Quote (GoStr.last_of (GoStr.Split full')))) :
  (occurs g typ ->
   (~ exists n, List.In (mkStmt n p_is_name (GoStr.Quote (GoStr.last_of (GoStr.Split full')))) g
                /\ List.In (mkStmt n p_is_type typ) g) ->
   CandidateGraftsFor g full typ = Ok []) /\
  (~ occurs g typ -> CandidateGraftsFor g full typ = Err "type not found").
Proof.
  unfold CandidateGraftsFor. rewrite Hq. rewrite (TermFor_occurs _ _ Hname).
  split.
  - intros Htyp Hnone. rewrite (TermFor_occurs _ _ Htyp).
    f_equal. apply walk_no_seed. apply list_empty. intros x Hx.
    apply in_seedFilter in Hx as [Hx Ht]. apply Hnone. exists x. split; [|exact Ht].
    apply in_In in Hx as (s & Hs & Hb & Ho & Hsub).
    destruct s as [a b c]; unfold byName in Hb; simpl in *. apply String.eqb_eq in Hb.
    destruct Ho as [Ho|[]]. subst. exact Hs.
  - intros Htyp. rewrite (TermFor_absent _ _ Htyp). reflexivity.
Qed.

End MatcherFacts.

(* ------------------------------------------------------------------ *)
(** ** The scenarios, evaluated *)

Module ScenarioFacts.
Import Scenario MatcherFacts.
Local Open Scope string_scope.

(** C1: on the Scenario 1 graph, [CandidateGraftsFor(graph, "registry.path",
    "keyword")] returns the path literal of the matched taxonomy ancestor
    [registry], not the path [registry.path] of the matching leaf. *)
Theorem graft_for_scenario1 :
  CandidateGraftsFor graph1 (GoStr.Quote "registry.path") (GoStr.Quote "keyword")
  = Ok [GoStr.Quote "registry"].
Proof. vm_compute. reflexivity. Qed.

(** C2 refuted: on the Scenario 1 graph the query [foo.path] of type keyword
    has a non-empty seed level (the leaf [registry.path]) and an empty first
    parent step; the walk returns the empty list, not the seed level's paths. *)
Lemma seed_level_not_returned :
  CandidateGraftsFor graph1 (GoStr.Quote "foo.path") (GoStr.Quote "keyword") = Ok [] /\
  Query.Unique (Query.Out graph1 byPath
     (seedFilter graph1 (GoStr.Quote "keyword") (Query.In graph1 byName [GoStr.Quote "path"])))
  = [GoStr.Quote "registry.path"].
Proof. split; vm_compute; reflexivity. Qed.

(** C8 refuted: on the Scenario 1 graph the type [text] is no node of the
    graph, and [CandidateGraftsFor] reports the error [type not found]. *)
Lemma scenario3_type_not_found :
  named graph1 (GoStr.Quote "path") = true /\
  namedTyped graph1 (GoStr.Quote "path") (GoStr.Quote "text") = false /\
  CandidateGraftsFor graph1 (GoStr.Quote "registry.path") (GoStr.Quote "text")
  = Err "type not found".
Proof. repeat split; vm_compute; reflexivity. Qed.

(** The amended C8 applied to Scenario 1 with the type [text], which is no
    node of its graph, and to the Scenario 1 inputs plus an authored text
    field, in whose graph [text] is a node that no leaf named [path] has as
    [is:type]. *)
Lemma graft_for_no_typed_leaf_witness :
  CandidateGraftsFor graph3 (GoStr.Quote "registry.path") (GoStr.Quote "text") = Ok [] /\
  CandidateGraftsFor graph1 (GoStr.Quote "registry.path") (GoStr.Quote "text")
  = Err "type not found".
Proof.
  split.
  - refine (proj1 (graft_for_no_typed_leaf graph3 _ "registry.path" _ _ _) _ _).
    + vm_compute. reflexivity.
    + apply TermFor_found. vm_compute. discriminate.
    + apply TermFor_found. vm_compute. discriminate.
    + apply namedTyped_false. vm_compute. reflexivity.
  - refine (proj2 (graft_for_no_typed_leaf graph1 _ "registry.path" _ _ _) _).
    + vm_compute. reflexivity.
    + apply TermFor_found. vm_compute. discriminate.
    + apply TermFor_None. vm_compute. reflexivity.
Defined.

(** C7 refuted: no node of the Scenario 1 graph is named [keyword] (the
    literal is a type value), yet [CandidateGraftsFor] of [foo.keyword]
    with type [keyword] returns the empty list without error; the path
    [path] was never flattened (the literal is a name), yet
    [CandidateGraftsIn] reports [no type] rather than [not found]. *)
Lemma absent_path_not_reported :
  named graph1 (GoStr.Quote "keyword") = false /\
  CandidateGraftsFor graph1 (GoStr.Quote "foo.keyword") (GoStr.Quote "keyword") = Ok [] /\
  pathed graph1 (GoStr.Quote "path") = false /\
  CandidateGraftsIn graph1 (GoStr.Quote "path") = Err "no type".
Proof. repeat split; vm_compute; reflexivity. Qed.

(** C4: for the authored field [a.a] against the taxonomy field [a.a.a] of
    the same type, [CandidateGraftsIn] returns the queried field's own path. *)
Theorem graft_in_returns_own_path :
  CandidateGraftsIn graphAA (GoStr.Quote "a.a") = Ok [GoStr.Quote "a.a"].
Proof. vm_compute. reflexivity. Qed.

(** C5: for the authored field [message] with the alternate index [raw],
    the only [has:multi] statement has as subject the node of the hash of
    [package] and [raw], not the node of the parent field [message]. *)
Theorem multi_subject_is_subfield_name :
  filter (fun s => String.eqb (Predicate s) p_has_multi)
         (Integration.Statements "" authoredMulti)
  = [mkStmt (blank (Integration.hash "raw")) p_has_multi (blank (Integration.hash "message.raw"))] /\
  Integration.hash "raw" <> Integration.hash "message".
Proof.
  split.
  - vm_compute. reflexivity.
  - intros H. vm_compute in H. discriminate H.
Qed.

End ScenarioFacts.

(* ------------------------------------------------------------------ *)
(** ** Error policy of the two entry points *)

Module EntryFacts.
Import QueryFacts MatcherFacts.


(** C7 (as amended): [CandidateGraftsFor] reports [path not found]
    exactly when the path literal unquotes and its quoted last segment is
    no node (subject or object) of the graph, and [CandidateGraftsIn]
    reports [not found] exactly when the path literal is no node of the
    graph. *)
Theorem graft_not_found_when_no_term (g : Graph) :
  (forall full typ,
      CandidateGraftsFor g full typ = Err "path not found" <->
      exists full', GoStr.Unquote full = Some full' /\
                    ~ occurs g (GoStr.Quote (GoStr.last_of (GoStr.Split full')))) /\
  (forall full, CandidateGraftsIn g full = Err "not found" <-> ~ occurs g full).
Proof.
  split.
  - intros full typ. unfold CandidateGraftsFor. split.
    + destruct (GoStr.Unquote full) as [full'|]; [|discriminate].
      intros H. exists full'. split; [reflexivity|].
      destruct (TermFor g (GoStr.Quote _)) as [node|] eqn:E1; [|exact (TermFor_None _ _ E1)].
      destruct (TermFor g typ); discriminate.
    + intros (full' & Hq & Ho). rewrite Hq, (TermFor_absent _ _ Ho). reflexivity.
  - intros full. unfold CandidateGraftsIn. split.
    + destruct (TermFor g full) as [node|] eqn:E; [|intros _; exact (TermFor_None _ _ E)].
      destruct (GoStr.Unquote full); [|discriminate].
      destruct (Query.Unique _) as [|t [|t' rest]]; discriminate.
    + intros Ho. rewrite (TermFor_absent _ _ Ho). reflexivity.
Qed.

Lemma in_pathNodes g full n :
  List.In n (Query.In g byPath [full]) <-> List.In (mkStmt n p_is_path full) g.
Proof.
  rewrite in_In. split.
  - intros (s & Hs & Hb & Ho & Hn). destruct s as [a b c]; unfold byPath in Hb; simpl in *.
    apply String.eqb_eq in Hb. destruct Ho as [Ho|[]]. subst. exact Hs.
  - intros H. exists (mkStmt n p_is_path full). unfold byPath; simpl.
    rewrite ?String.eqb_refl. auto.
Qed.

Lemma in_published g q n :
  List.In n (Query.And (Query.In g isPublished (Query.Out g isPublished q)) q) <->
  List.In n q /\ List.In (mkStmt n p_is_published lit_true) g.
Proof.
  rewrite in_And, in_In. split.
  - intros [(s & Hs & Hb & _ & Hn) Hq]. split; [exact Hq|].
    destruct s as [a b c]; unfold isPublished in Hb; simpl in *.
    apply andb_true_iff in Hb as [Hb Hc]. apply String.eqb_eq in Hb, Hc. subst. exact Hs.
  - intros [Hq Hs]. split; [|exact Hq].
    exists (mkStmt n p_is_published lit_true). unfold isPublished; simpl.
    rewrite ?String.eqb_refl. repeat split; auto.
    apply in_Out. exists (mkStmt n p_is_published lit_true). unfold isPublished; simpl.
    rewrite ?String.eqb_refl. auto.
Qed.

(** C3: for a path literal that is a term of the graph, [CandidateGraftsIn]
    collects, without repetition, exactly the values recorded with [as:type]
    by the published nodes carrying that path; with none it reports
    [no type], with several it reports [found multiple types] listing all of
    them, and with exactly one it walks the graph with that type. *)
Theorem graft_in_type_policy (g : Graph) (full full' : string)
  (Hterm : TermFor g full <> None) (Hq : GoStr.Unquote full = Some full') :
  exists typs,
    NoDup typs /\
    (forall t, List.In t typs <->
       exists n, List.In (mkStmt n p_is_path full) g /\
                 List.In (mkStmt n p_is_published lit_true) g /\
                 List.In (mkStmt n p_as_type t) g) /\
    CandidateGraftsIn g full =
      match typs with
      | [] => Err "no type"
      | [t] => Ok (walkMatchingPath g
                     (Query.Not (Query.In g byName (Query.Out g byName (Query.In g byPath [full])))
                                (Query.In g byPath [full]))
                     t (GoStr.Split full'))
      | _ => Err ("found multiple types: " ++ fmtStrings typs)
      end.
Proof.
  unfold CandidateGraftsIn.
  destruct (TermFor g full) as [node|] eqn:E; [|congruence].
  apply TermFor_Some in E. subst node. rewrite Hq.
  eexists. split; [apply NoDup_Unique|]. split; [|reflexivity].
  intros t. rewrite in_Unique, in_Out. split.
  - intros (s & Hs & Hb & Hn & Ht). apply in_published in Hn as [Hn Hp].
    apply in_pathNodes in Hn. destruct s as [a b c]; unfold byUsedType in Hb; simpl in *.
    apply String.eqb_eq in Hb. subst. eauto.
  - intros (n & Hp & Hpub & Ht). exists (mkStmt n p_as_type t). unfold byUsedType; simpl.
    rewrite ?String.eqb_refl. repeat split; auto.
    apply in_published. split; [apply in_pathNodes; exact Hp | exact Hpub].
Qed.

Lemma graft_in_type_policy_witness :
  exists typs,
    NoDup typs /\
    (forall t, List.In t typs <->
       exists n, List.In (mkStmt n p_is_path (GoStr.Quote "registry.path")) Scenario.graph1 /\
                 List.In (mkStmt n p_is_published lit_true) Scenario.graph1 /\
                 List.In (mkStmt n p_as_type t) Scenario.graph1) /\
    CandidateGraftsIn Scenario.graph1 (GoStr.Quote "registry.path") =
      match typs with
      | [] => Err "no type"
      | [t] => Ok (walkMatchingPath Scenario.graph1
                     (Query.Not (Query.In Scenario.graph1 byName
                                   (Query.Out Scenario.graph1 byName
                                      (Query.In Scenario.graph1 byPath [GoStr.Quote "registry.path"])))
                                (Query.In Scenario.graph1 byPath [GoStr.Quote "registry.path"]))
                     t (GoStr.Split "registry.path"))
      | _ => Err ("found multiple types: " ++ fmtStrings typs)
      end.
Proof.
  apply graft_in_type_policy.
  - vm_compute. discriminate.
  - vm_compute. reflexivity.
Defined.

End EntryFacts.

(* ------------------------------------------------------------------ *)
(** ** Authored mode: the statements of each record *)

Module IntegrationFacts.
Import EmitFacts Integration.

(** Induction over records, with the hypothesis for every nested record. *)
Lemma Field_ind' (P : Field -> Prop)
  (H : forall nm ty fs ms ext, Forall P fs -> P (mkField nm ty fs ms ext)) :
  forall f, P f.
Proof.
  exact (fix F f := match f with
    | mkField nm ty fs ms ext =>
        H nm ty fs ms ext
          ((fix G (l : list Field) : Forall P l :=
              match l with
              | [] => Forall_nil P
              | x :: l' => Forall_cons x (F x) (G l')
              end) fs)
    end).
Qed.

Lemma in_recordStmts (r : Field) : forall parent s,
  List.In s (recordStmts parent r) <->
  exists nm r', List.In (nm, r') (recordsOf parent r) /\ List.In s (fieldStmts nm r').
Proof.
  induction r as [nm ty fs ms ext IH] using Field_ind'. intros parent s.
  rewrite Forall_forall in IH. simpl. rewrite in_app_iff, in_flat_map. split.
  - intros [(f & Hf & Hs)|Hs].
    + apply IH in Hs as (nm' & r' & Hr & Hs'); [|exact Hf].
      exists nm', r'. split; [right; apply in_flat_map; eauto | exact Hs'].
    + eexists _, _. split; [left; reflexivity | exact Hs].
  - intros (nm' & r' & [Hr|Hr] & Hs).
    + injection Hr as <- <-. right. exact Hs.
    + left. apply in_flat_map in Hr as (f & Hf & Hr). exists f. split; [exact Hf|].
      apply IH; [exact Hf|]. eauto.
Qed.

(** Every statement of the flattener belongs to the block of one visited
    record, and every such block is emitted. *)
Lemma in_Statements parent schema s :
  List.In s (Statements parent schema) <->
  exists nm r, List.In (nm, r) (processed parent schema) /\ List.In s (fieldStmts nm r).
Proof.
  unfold Statements, processed. rewrite in_flat_map. split.
  - intros (r & Hr & Hs). apply in_recordStmts in Hs as (nm & r' & H1 & H2).
    exists nm, r'. split; [apply in_flat_map; eauto | exact H2].
  - intros (nm & r & Hp & Hs). apply in_flat_map in Hp as (r0 & H0 & Hp).
    exists r0. split; [exact H0|]. apply in_recordStmts. eauto.
Qed.

Ltac list_cases H :=
  simpl in H; repeat (destruct H as [H|H]; [subst; simpl|]); try contradiction.

Ltac unfold_preds :=
  unfold p_is_name, p_is_path, p_is_type, p_as_type, p_is_published,
         p_external_type, p_has_child, p_has_multi in *.

(** Within one record's block: every subject is the label of some path and
    the subject of an [is:path] statement is the label of its object; no
    statement uses [is:type]; every subject but that of [has:multi] is
    published; an [external:type] statement is the leaf's, present exactly
    when the record's [External] is not empty. *)
Lemma record_block_facts nm r s :
  List.In s (fieldStmts nm r) ->
  (exists P, Subject s = blank (hash P) /\ (Predicate s = p_is_path -> Object s = GoStr.Quote P)) /\
  Predicate s <> p_is_type /\
  (Predicate s <> p_has_multi -> List.In (mkStmt (Subject s) p_is_published lit_true) (fieldStmts nm r)) /\
  (Predicate s = p_external_type ->
     s = mkStmt (blank (hash nm)) p_external_type (GoStr.Quote (External r)) /\ External r <> EmptyString).
Proof.
  intros Hs. pose proof Hs as Hs0. unfold fieldStmts in Hs.
  apply in_app_iff in Hs as [Hs|Hs].
  - apply in_flat_map in Hs as (i & Hi & Hs).
    assert (Hpub : List.In (mkStmt (blank (hash (GoStr.Join (GoStr.prefix (i + 1) (GoStr.Split nm)))))
                      p_is_published lit_true) (fieldStmts nm r)).
    { unfold fieldStmts. apply in_app_iff. left. apply in_flat_map. exists i.
      split; [exact Hi | apply in_emits; split; [left|]; reflexivity]. }
    unfold groupStmts in Hs. apply in_emits in Hs as [Hs _]. list_cases Hs;
      (split; [eexists; split; [reflexivity|]; intros E; unfold_preds; try discriminate; reflexivity|]);
      (split; [intros E; unfold_preds; discriminate|]);
      (split; [intros _; exact Hpub | intros E; unfold_preds; discriminate]).
  - assert (Hpub : List.In (mkStmt (blank (hash nm)) p_is_published lit_true) (fieldStmts nm r)).
    { unfold fieldStmts. apply in_app_iff. right. apply in_app_iff. left.
      apply in_emits. split; [left|]; reflexivity. }
    apply in_app_iff in Hs as [Hs|Hs].
    + unfold leafStmts in Hs. apply in_emits in Hs as [Hs _]. apply in_app_iff in Hs as [Hs|Hs].
      { list_cases Hs;
        (split; [eexists; split; [reflexivity|]; intros E; unfold_preds; try discriminate; reflexivity|]);
        (split; [intros E; unfold_preds; discriminate|]);
        (split; [intros _; exact Hpub | intros E; unfold_preds; discriminate]). }
      apply in_app_iff in Hs as [Hs|Hs].
      { destruct (String.eqb (External r) EmptyString) eqn:Ee; [contradiction|].
        destruct Hs as [<-|[]]. simpl.
        split; [eexists; split; [reflexivity|]; intros E; unfold_preds; discriminate|].
        split; [intros E; unfold_preds; discriminate|].
        split; [intros _; exact Hpub|].
        intros _. split; [reflexivity|]. intros E. rewrite E in Ee. discriminate. }
      { destruct (String.eqb (Type_ r) EmptyString); [contradiction|].
        destruct Hs as [<-|[]]. simpl.
        split; [eexists; split; [reflexivity|]; intros E; unfold_preds; discriminate|].
        split; [intros E; unfold_preds; discriminate|].
        split; [intros _; exact Hpub | intros E; unfold_preds; discriminate]. }
    + apply in_flat_map in Hs as (m & Hm & Hs).
      assert (Hpubm : List.In (mkStmt (blank (hash (nm ++ "." ++ MName m)%string)) p_is_published lit_true)
                        (fieldStmts nm r)).
      { unfold fieldStmts. apply in_app_iff. right. apply in_app_iff. right.
        apply in_flat_map. exists m. split; [exact Hm|].
        apply in_emits. split; [right; left|]; reflexivity. }
      unfold multiStmts in Hs. apply in_emits in Hs as [Hs _]. list_cases Hs;
        (split; [eexists; split; [reflexivity|]; intros E; unfold_preds; try discriminate; reflexivity|]);
        (split; [intros E; unfold_preds; discriminate|]);
        (split; [intros E; unfold_preds; try (exfalso; apply E; reflexivity); exact Hpubm
                | intros E; unfold_preds; discriminate]).
Qed.


End IntegrationFacts.

(* ------------------------------------------------------------------ *)
(** ** Quoting is undone by unquoting *)

Module QuoteFacts.
Import GoStr.

Lemma list_ascii_of_string_app (a b : string) :
  list_ascii_of_string (a ++ b) = list_ascii_of_string a ++ list_ascii_of_string b.
Proof. induction a as [|c a IH]; simpl; [reflexivity | now rewrite IH]. Qed.

Lemma unquote_escape1 (c : ascii) (rest : list ascii) :
  unquote_body (list_ascii_of_string (escape1 c) ++ rest) =
  match unquote_body rest with Some r => Some (c :: r) | None => None end.
Proof.
  destruct c as [b0 b1 b2 b3 b4 b5 b6 b7].
  destruct b0, b1, b2, b3, b4, b5, b6, b7; simpl;
    destruct (unquote_body rest); reflexivity.
Qed.

Lemma unquote_escape (s : string) :
  unquote_body (list_ascii_of_string (escape s) ++ [dq]) = Some (list_ascii_of_string s).
Proof.
  induction s as [|c s IH]; [reflexivity|].
  simpl escape. rewrite list_ascii_of_string_app, <- app_assoc, unquote_escape1, IH.
  reflexivity.
Qed.

Lemma Unquote_Quote (s : string) : Unquote (Quote s) = Some s.
Proof.
  unfold Unquote, Quote. simpl list_ascii_of_string.
  rewrite list_ascii_of_string_app. simpl.
  change [dq] with (list_ascii_of_string (String dq EmptyString)).
  rewrite <- list_ascii_of_string_app.
  rewrite list_ascii_of_string_app. simpl.
  rewrite unquote_escape. simpl. now rewrite string_of_list_ascii_of_string.
Qed.

Lemma Quote_inj (a b : string) : Quote a = Quote b -> a = b.
Proof.
  intros E. apply (f_equal Unquote) in E. rewrite !Unquote_Quote in E.
  now injection E.
Qed.

End QuoteFacts.

(* ------------------------------------------------------------------ *)
(** ** Shape of the hash labels *)

Module HashFacts.

Lemma hex_length (l : list Z) : String.length (hex l) = 2 * length l.
Proof. induction l as [|b l IH]; simpl; [reflexivity | rewrite IH; lia]. Qed.

Lemma Sum_length (m : list Z) : length (SHA1.Sum m) = 20.
Proof.
  unfold SHA1.Sum.
  destruct (fold_left SHA1.compress _ SHA1.h_init) as [[[[h0 h1] h2] h3] h4].
  reflexivity.
Qed.

Lemma get_in (s : string) : forall n c, String.get n s = Some c -> List.In c (list_ascii_of_string s).
Proof.
  induction s as [|d s IH]; intros n c H; [discriminate|].
  destruct n as [|n]; simpl in H.
  - injection H as <-. left. reflexivity.
  - right. exact (IH n c H).
Qed.

Lemma hexdigit_in (n : Z) : List.In (GoStr.hexdigit n) (list_ascii_of_string hexDigits).
Proof.
  unfold GoStr.hexdigit. destruct (String.get _ _) eqn:E.
  - exact (get_in _ _ _ E).
  - simpl. left. reflexivity.
Qed.

Lemma hex_digits (l : list Z) : forall n c,
  String.get n (hex l) = Some c -> List.In c (list_ascii_of_string hexDigits).
Proof.
  induction l as [|b l IH]; intros n c H; [discriminate|].
  destruct n as [|[|n]]; simpl in H.
  - injection H as <-. apply hexdigit_in.
  - injection H as <-. apply hexdigit_in.
  - exact (IH n c H).
Qed.

(** A label is 40 lowercase hexadecimal digits. *)
Lemma nsHash_shape ns p :
  String.length (nsHash ns p) = 40 /\
  (forall n c, String.get n (nsHash ns p) = Some c -> List.In c (list_ascii_of_string hexDigits)).
Proof.
  unfold nsHash. split.
  - rewrite hex_length, Sum_length. reflexivity.
  - apply hex_digits.
Qed.

End HashFacts.

(* ------------------------------------------------------------------ *)
(** ** Taxonomy mode: the statements of each entry *)

Module SchemaFacts.
Import EmitFacts Schema.

Lemma SField_ind' (P : SField -> Prop)
  (H : forall ty fs ms, Forall (fun fp => P (snd fp)) fs -> P (mkSField ty fs ms)) :
  forall f, P f.
Proof.
  exact (fix F f := match f with
    | mkSField ty fs ms =>
        H ty fs ms
          ((fix G (l : list (string * SField)) : Forall (fun fp => P (snd fp)) l :=
              match l with
              | [] => Forall_nil _
              | x :: l' => Forall_cons x (F (snd x)) (G l')
              end) fs)
    end).
Qed.

Lemma fromBlock_incl out out' s : incl out out' -> fromBlock out s -> fromBlock out' s.
Proof.
  intros Hi (f & p & l & H1 & H2 & H3). exists f, p, l. repeat split; auto.
  intros x Hx. apply Hi, H3, Hx.
Qed.

Lemma entry_blocks (props : SField) : forall parent field l,
  entryStmts parent field props = Some l -> forall s, List.In s l -> fromBlock l s.
Proof.
  induction props as [ty fs ms IH] using SField_ind'.
  induction fs as [|[f p] rest IHfs]; intros parent field l H s Hs.
  - simpl in H. destruct (String.eqb parent EmptyString).
    + injection H as <-. contradiction.
    + destruct (fieldStmts field (mkSField ty [] ms)) as [own|] eqn:Ho; [|discriminate].
      injection H as <-. exists field, (mkSField ty [] ms), own. repeat split; auto.
      intros x Hx. exact Hx.
  - inversion IH as [|? ? IHp IHrest]; subst.
    simpl in H. destruct (entryStmts field f p) as [a|] eqn:Ha; [|discriminate].
    match type of H with
    | context [?F rest] => destruct (F rest) as [b|] eqn:Hb; [|discriminate]
    end.
    simpl in H.
    destruct (if String.eqb parent EmptyString then Some [] else fieldStmts field (mkSField ty ((f, p) :: rest) ms)) as [own|] eqn:Ho; [|discriminate].
    injection H as <-.
    assert (Hown' : (if String.eqb parent EmptyString then Some [] else fieldStmts field (mkSField ty rest ms)) = Some own).
    { destruct (String.eqb parent EmptyString); exact Ho. }
    assert (Hr : entryStmts parent field (mkSField ty rest ms) = Some (b ++ own)).
    { simpl. rewrite Hb. rewrite Hown'. reflexivity. }
    assert (Hi : incl (b ++ own) ((a ++ b) ++ own)).
    { intros x Hx. rewrite <- app_assoc. apply in_app_iff. right. exact Hx. }
    apply in_app_iff in Hs as [Hs|Hs]; [apply in_app_iff in Hs as [Hs|Hs]|].
    + apply (fromBlock_incl a); [intros x Hx; apply in_app_iff; left; apply in_app_iff; left; exact Hx|].
      exact (IHp _ _ _ Ha s Hs).
    + apply (fromBlock_incl _ _ _ Hi).
      apply (IHfs IHrest _ _ _ Hr s). apply in_app_iff. left. exact Hs.
    + apply (fromBlock_incl _ _ _ Hi).
      apply (IHfs IHrest _ _ _ Hr s). apply in_app_iff. right. exact Hs.
Qed.

Lemma Statements_blocks (schema : list (string * SField)) : forall parent out,
  Statements parent schema = Some out -> forall s, List.In s out -> fromBlock out s.
Proof.
  induction schema as [|[field props] rest IH]; intros parent out H s Hs.
  - injection H as <-. contradiction.
  - simpl in H. destruct (entryStmts parent field props) as [a|] eqn:Ha; [|discriminate].
    destruct (Statements parent rest) as [b|] eqn:Hb; [|discriminate].
    injection H as <-. apply in_app_iff in Hs as [Hs|Hs].
    + apply (fromBlock_incl a); [intros x Hx; apply in_app_iff; left; exact Hx|].
      exact (entry_blocks _ _ _ _ Ha s Hs).
    + apply (fromBlock_incl b); [intros x Hx; apply in_app_iff; right; exact Hx|].
      exact (IH _ _ Hb s Hs).
Qed.

Lemma taxonomy_blocks (docs : list (list (string * SField))) : forall out,
  taxonomyStatements docs = Some out -> forall s, List.In s out -> fromBlock out s.
Proof.
  induction docs as [|d rest IH]; intros out H s Hs.
  - injection H as <-. contradiction.
  - simpl in H. destruct (Statements EmptyString d) as [a|] eqn:Ha; [|discriminate].
    destruct (taxonomyStatements rest) as [b|] eqn:Hb; [|discriminate].
    injection H as <-. apply in_app_iff in Hs as [Hs|Hs].
    + apply (fromBlock_incl a); [intros x Hx; apply in_app_iff; left; exact Hx|].
      exact (Statements_blocks _ _ _ Ha s Hs).
    + apply (fromBlock_incl b); [intros x Hx; apply in_app_iff; right; exact Hx|].
      exact (IH _ eq_refl s Hs).
Qed.

Lemma multis_in (ms : list MultiField) : forall l,
  multisStmts ms = Some l -> forall s, List.In s l ->
  exists m l', List.In m ms /\ multiStmts m = Some l' /\ List.In s l'.
Proof.
  induction ms as [|m rest IH]; intros l H s Hs.
  - injection H as <-. contradiction.
  - simpl in H. destruct (multiStmts m) as [a|] eqn:Ha; [|discriminate].
    destruct (multisStmts rest) as [b|] eqn:Hb; [|discriminate].
    injection H as <-. apply in_app_iff in Hs as [Hs|Hs].
    + exists m, a. repeat split; auto. left. reflexivity.
    + destruct (IH _ eq_refl s Hs) as (m' & l' & H1 & H2 & H3).
      exists m', l'. repeat split; auto. right. exact H1.
Qed.

Ltac list_cases H :=
  simpl in H; repeat (destruct H as [H|H]; [subst; simpl|]); try contradiction.

Ltac unfold_preds :=
  unfold p_is_name, p_is_path, p_is_type, p_as_type, p_is_published,
         p_external_type, p_has_child, p_has_multi in *.

(** Within one entry's block: every subject is the label of some path,
    the subject of an [is:path] statement is the label of its object, and
    the subject of a [has:child] statement is typed ["group"]. *)
Lemma entry_block_facts field props l :
  fieldStmts field props = Some l -> forall s, List.In s l ->
  (exists P, Subject s = blank (hash P) /\ (Predicate s = p_is_path -> Object s = GoStr.Quote P)) /\
  (Predicate s = p_has_child -> List.In (mkStmt (Subject s) p_is_type (GoStr.Quote "group"%string)) l).
Proof.
  intros H s Hs. unfold fieldStmts in H.
  destruct (multisStmts (SMultiFields props)) as [ms|] eqn:Hms; [|discriminate].
  injection H as <-. apply in_app_iff in Hs as [Hs|Hs].
  - apply in_flat_map in Hs as (i & Hi & Hs).
    assert (Hgrp : List.In (mkStmt (blank (hash (GoStr.Join (GoStr.prefix (i + 1) (GoStr.Split field)))))
                     p_is_type (GoStr.Quote "group"%string))
                   (flat_map (groupStmts (GoStr.Split field)) (groupRange (GoStr.Split field)) ++
                    flat_map emit
                    [ mkStmt (blank (hash field)) p_is_type (GoStr.Quote (SType props));
                      mkStmt (blank (hash field)) p_is_name (GoStr.Quote (GoStr.last_of (GoStr.Split field)));
                      mkStmt (blank (hash field)) p_is_path (GoStr.Quote field) ] ++ ms)).
    { apply in_app_iff. left. apply in_flat_map. exists i. split; [exact Hi|].
      apply in_emits. split; [left|]; reflexivity. }
    unfold groupStmts in Hs. apply in_emits in Hs as [Hs _]. list_cases Hs;
      (split; [eexists; split; [reflexivity|]; intros E; unfold_preds; try discriminate; reflexivity
              | intros E; unfold_preds; try discriminate; exact Hgrp]).
  - apply in_app_iff in Hs as [Hs|Hs].
    { emit_cases Hs; list_cases Hs;
      (split; [eexists; split; [reflexivity|]; intros E; unfold_preds; try discriminate; reflexivity
              | intros E; unfold_preds; discriminate]). }
    + destruct (multis_in _ _ Hms s Hs) as (m & l' & _ & Hm & Hs').
      unfold multiStmts in Hm. destruct (lastIndexDot (MFlatName m)) as [k|]; [|discriminate].
      injection Hm as <-. emit_cases Hs'; list_cases Hs';
        (split; [eexists; split; [reflexivity|]; intros E; unfold_preds; try discriminate; reflexivity
                | intros E; unfold_preds; discriminate]).
Qed.

End SchemaFacts.

(* ------------------------------------------------------------------ *)
(** ** Candidates of flattened graphs *)

Module GraphFacts.
Import QueryFacts MatcherFacts.

Lemma in_Deduplicate (l : list Statement) s : List.In s (Deduplicate l) <-> List.In s l.
Proof.
  induction l as [|x l IH]; [reflexivity|]. simpl.
  destruct (existsb (stmt_eqb x) l) eqn:E.
  - rewrite IH. split; [intros H; right; exact H|].
    intros [<-|H]; [|exact H].
    apply existsb_exists in E as (y & Hy & Heq). apply stmt_eqb_true in Heq. subst. exact Hy.
  - simpl. rewrite IH. reflexivity.
Qed.

Lemma walkLoop_typed g (Hc : childTypedClosed g) : forall segs q final,
  (forall n, List.In n q -> typedNode g n) ->
  (forall p, List.In p final -> typedPath g p) ->
  forall p, List.In p (walkLoop g q segs final) -> typedPath g p.
Proof.
  induction segs as [|a segs IH]; intros q final Hq Hf p Hp; [exact (Hf p Hp)|].
  rewrite walkLoop_cons in Hp. destruct (step g q a) as [q' r] eqn:Hstep.
  unfold step in Hstep. injection Hstep as Hq' Hr. rewrite Hq' in Hr.
  assert (Hq'typed : forall n, List.In n q' -> typedNode g n).
  { intros n Hn. rewrite <- Hq' in Hn. apply in_And in Hn as [_ Hn].
    apply in_In in Hn as (s & Hs & Hch & Ho & <-).
    apply Hc; [exact Hs | unfold hasChild in Hch; apply String.eqb_eq in Hch; exact Hch |].
    exact (Hq _ Ho). }
  assert (Hrp : forall p, List.In p r -> typedPath g p).
  { intros x Hx. rewrite <- Hr in Hx. apply in_Unique, in_Out in Hx as (s & Hs & Hb & Hsq & <-).
    destruct s as [sb pr ob]. unfold byPath in Hb. simpl in *. apply String.eqb_eq in Hb. subst pr.
    exists sb. split; [exact Hs | exact (Hq'typed _ Hsq)]. }
  destruct r as [|x r']; [exact (Hf p Hp)|].
  exact (IH q' (x :: r') Hq'typed Hrp p Hp).
Qed.

Lemma walk_typed g (Hc : childTypedClosed g) q typ path p :
  List.In p (walkMatchingPath g q typ path) -> typedPath g p.
Proof.
  unfold walkMatchingPath. apply walkLoop_typed; [exact Hc | | intros x []].
  intros n Hn. apply in_seedFilter in Hn as [_ Hn]. exists typ. exact Hn.
Qed.

Lemma graft_for_walk g full typ res :
  CandidateGraftsFor g full typ = Ok res -> exists q t path, res = walkMatchingPath g q t path.
Proof.
  unfold CandidateGraftsFor. destruct (GoStr.Unquote full); [|discriminate].
  destruct (TermFor g _); [|discriminate]. destruct (TermFor g typ) as [ty|]; [|discriminate].
  intros H. injection H as <-. eauto.
Qed.

Lemma graft_in_walk g full res :
  CandidateGraftsIn g full = Ok res -> exists q t path, res = walkMatchingPath g q t path.
Proof.
  unfold CandidateGraftsIn. destruct (TermFor g full); [|discriminate].
  destruct (GoStr.Unquote full); [|discriminate].
  destruct (Query.Unique _) as [|ty [|ty' rest]]; try discriminate.
  intros H. injection H as <-. eauto.
Qed.

Lemma labelsDisjoint_spec T A :
  labelsDisjoint T A = true ->
  forall s s', List.In s T -> List.In s' A -> Subject s <> Subject s' /\ Subject s <> Object s'.
Proof.
  unfold labelsDisjoint. rewrite forallb_forall. intros H s s' Hs Hs'.
  specialize (H s Hs). rewrite forallb_forall in H. specialize (H s' Hs').
  apply andb_prop in H as [H1 H2]. apply negb_true_iff in H1, H2.
  split; intros E; rewrite E, String.eqb_refl in *; discriminate.
Qed.

Lemma in_authored docs s :
  List.In s (authoredStatements docs) ->
  exists nm r, List.In s (Integration.fieldStmts nm r).
Proof.
  unfold authoredStatements. rewrite in_flat_map. intros (d & _ & Hs).
  apply IntegrationFacts.in_Statements in Hs as (nm & r & _ & Hs). eauto.
Qed.

(** The graph [main] builds is closed for [is:type] along [has:child] when
    the two label namespaces do not collide. *)
Lemma built_graph_closed taxonomy authored T g :
  taxonomyStatements taxonomy = Some T ->
  labelsDisjoint T (authoredStatements authored) = true ->
  buildGraph taxonomy authored = Some g ->
  childTypedClosed g.
Proof.
  intros HT Hd Hg. unfold buildGraph in Hg. rewrite HT in Hg. injection Hg as <-.
  intros s Hs Hch (t & Ht). apply in_Deduplicate, in_app_iff in Hs as [Hs|Hs].
  - destruct (SchemaFacts.taxonomy_blocks _ _ HT s Hs) as (f & p & l & Hl & Hsl & Hincl).
    destruct (SchemaFacts.entry_block_facts _ _ _ Hl s Hsl) as [_ Hgrp].
    exists (GoStr.Quote "group"%string). apply in_Deduplicate, in_app_iff. left.
    apply Hincl, Hgrp, Hch.
  - exfalso. apply in_Deduplicate, in_app_iff in Ht as [Ht|Ht].
    + destruct (labelsDisjoint_spec _ _ Hd _ _ Ht Hs) as [_ Hne]. apply Hne. reflexivity.
    + destruct (in_authored _ _ Ht) as (nm & r & Hb).
      destruct (IntegrationFacts.record_block_facts _ _ _ Hb) as (_ & Hnt & _). apply Hnt. reflexivity.
Qed.

End GraphFacts.

(* ------------------------------------------------------------------ *)
(** ** The claims on the flatteners *)

Module FlattenFacts.
Import GraphFacts.

(** X16: in both modes every subject is the blank node labelled by the
    lowercase hexadecimal SHA-1 of the bytes of the namespace ("schema" or
    "package") followed by some string, and the subject of an [is:path]
    statement is labelled by its own (quoted) path; so two [is:path]
    statements for the same path, from any two documents flattened in the
    same mode, have the same subject.  A label is 40 characters taken from
    [0123456789abcdef]. *)
Theorem subject_labels_are_path_hashes :
  (forall parent schema out s,
     Schema.Statements parent schema = Some out -> List.In s out ->
     exists P, Subject s = blank (hex (SHA1.Sum (GoStr.bytes_of ("schema" ++ P))))
               /\ (Predicate s = p_is_path -> Object s = GoStr.Quote P)) /\
  (forall parent schema s,
     List.In s (Integration.Statements parent schema) ->
     exists P, Subject s = blank (hex (SHA1.Sum (GoStr.bytes_of ("package" ++ P))))
               /\ (Predicate s = p_is_path -> Object s = GoStr.Quote P)) /\
  (forall p1 sc1 o1 p2 sc2 o2 s1 s2,
     Schema.Statements p1 sc1 = Some o1 -> Schema.Statements p2 sc2 = Some o2 ->
     List.In s1 o1 -> List.In s2 o2 ->
     Predicate s1 = p_is_path -> Predicate s2 = p_is_path -> Object s1 = Object s2 ->
     Subject s1 = Subject s2) /\
  (forall p1 sc1 p2 sc2 s1 s2,
     List.In s1 (Integration.Statements p1 sc1) -> List.In s2 (Integration.Statements p2 sc2) ->
     Predicate s1 = p_is_path -> Predicate s2 = p_is_path -> Object s1 = Object s2 ->
     Subject s1 = Subject s2) /\
  (forall ns P, String.length (nsHash ns P) = 40 /\
     forall n c, String.get n (nsHash ns P) = Some c -> List.In c (list_ascii_of_string hexDigits)).
Proof.
  assert (Hs : forall parent schema out s,
     Schema.Statements parent schema = Some out -> List.In s out ->
     exists P, Subject s = blank (hex (SHA1.Sum (GoStr.bytes_of ("schema" ++ P))))
               /\ (Predicate s = p_is_path -> Object s = GoStr.Quote P)).
  { intros parent schema out s H Hin.
    destruct (SchemaFacts.Statements_blocks _ _ _ H s Hin) as (f & p & l & Hl & Hsl & _).
    exact (proj1 (SchemaFacts.entry_block_facts _ _ _ Hl s Hsl)). }
  assert (Hi : forall parent schema s,
     List.In s (Integration.Statements parent schema) ->
     exists P, Subject s = blank (hex (SHA1.Sum (GoStr.bytes_of ("package" ++ P))))
               /\ (Predicate s = p_is_path -> Object s = GoStr.Quote P)).
  { intros parent schema s Hin.
    apply IntegrationFacts.in_Statements in Hin as (nm & r & _ & Hb).
    exact (proj1 (IntegrationFacts.record_block_facts _ _ _ Hb)). }
  split; [exact Hs|]. split; [exact Hi|]. split; [|split].
  - intros p1 sc1 o1 p2 sc2 o2 s1 s2 H1 H2 I1 I2 P1 P2 E.
    destruct (Hs _ _ _ _ H1 I1) as (x1 & L1 & Q1).
    destruct (Hs _ _ _ _ H2 I2) as (x2 & L2 & Q2).
    rewrite (Q1 P1), (Q2 P2) in E. apply QuoteFacts.Quote_inj in E. subst.
    rewrite L1, L2. reflexivity.
  - intros p1 sc1 p2 sc2 s1 s2 I1 I2 P1 P2 E.
    destruct (Hi _ _ _ I1) as (x1 & L1 & Q1).
    destruct (Hi _ _ _ I2) as (x2 & L2 & Q2).
    rewrite (Q1 P1), (Q2 P2) in E. apply QuoteFacts.Quote_inj in E. subst.
    rewrite L1, L2. reflexivity.
  - intros ns P. apply HashFacts.nsHash_shape.
Qed.



(** C6 refuted: flattening the authored field [message] with the alternate
    index [raw] emits a statement whose subject is labelled by the hash of
    [package] and [raw], which is neither the field's full path [message]
    nor the sub-field's full path [message.raw]. *)
Theorem multi_subject_off_path :
  map fst (Integration.processed "" Scenario.authoredMulti) = ["message"%string] /\
  List.In (mkStmt (blank (Integration.hash "raw")) p_has_multi (blank (Integration.hash "message.raw")))
          (Integration.Statements "" Scenario.authoredMulti) /\
  Integration.hash "raw" <> Integration.hash "message" /\
  Integration.hash "raw" <> Integration.hash "message.raw".
Proof.
  split; [reflexivity|]. split; [vm_compute; tauto|].
  split; intros H; vm_compute in H; discriminate H.
Qed.

(** Claim C10: on the graph [main] builds from taxonomy and authored
    documents whose blank node labels do not collide, every path returned
    by [CandidateGraftsFor] or [CandidateGraftsIn] is the [is:path] of a
    node that has an [is:type] statement; nodes typed only with [as:type]
    (all authored nodes) are never returned. *)
Theorem candidates_are_is_typed (taxonomy : list (list (string * SField)))
  (authored : list (list Field)) (T : list Statement) (g : Graph)
  (HT : taxonomyStatements taxonomy = Some T)
  (Hdisj : labelsDisjoint T (authoredStatements authored) = true)
  (Hg : buildGraph taxonomy authored = Some g)
  (res : list string)
  (Hres : (exists full typ, CandidateGraftsFor g full typ = Ok res) \/
          (exists full, CandidateGraftsIn g full = Ok res)) :
  forall p, List.In p res -> exists n t, List.In (mkStmt n p_is_path p) g /\ List.In (mkStmt n p_is_type t) g.
Proof.
  intros p Hp.
  pose proof (built_graph_closed _ _ _ _ HT Hdisj Hg) as Hc.
  assert (Hw : exists q t path, res = walkMatchingPath g q t path).
  { destruct Hres as [(full & typ & H)|(full & H)];
      [exact (graft_for_walk _ _ _ _ H) | exact (graft_in_walk _ _ _ H)]. }
  destruct Hw as (q & t & path & ->).
  destruct (walk_typed g Hc q t path p Hp) as (n & Hn & t' & Ht').
  exists n, t'. split; assumption.
Qed.

(** Scenario 1 meets the hypotheses of claim C10, and its candidate
    [registry] has an [is:type]-typed node. *)
Lemma candidates_are_is_typed_witness :
  taxonomyStatements [Scenario.taxonomy1] = Some Scenario1.tax1 /\
  labelsDisjoint Scenario1.tax1 (authoredStatements [Scenario.authored1]) = true /\
  buildGraph [Scenario.taxonomy1] [Scenario.authored1] = Some Scenario.graph1 /\
  exists n t, List.In (mkStmt n p_is_path (GoStr.Quote "registry"%string)) Scenario.graph1 /\
              List.In (mkStmt n p_is_type t) Scenario.graph1.
Proof.
  assert (HT : taxonomyStatements [Scenario.taxonomy1] = Some Scenario1.tax1)
    by (vm_compute; reflexivity).
  assert (HD : labelsDisjoint Scenario1.tax1 (authoredStatements [Scenario.authored1]) = true)
    by (vm_compute; reflexivity).
  assert (HG : buildGraph [Scenario.taxonomy1] [Scenario.authored1] = Some Scenario.graph1)
    by (vm_compute; reflexivity).
  split; [exact HT|]. split; [exact HD|]. split; [exact HG|].
  apply (candidates_are_is_typed [Scenario.taxonomy1] [Scenario.authored1] Scenario1.tax1
           Scenario.graph1 HT HD HG [GoStr.Quote "registry"%string]).
  - left. exists (GoStr.Quote "registry.path"%string), (GoStr.Quote "keyword"%string).
    vm_compute. reflexivity.
  - left. reflexivity.
Defined.

End FlattenFacts.

(* ------------------------------------------------------------------ *)
(** ** [strings.Split], [strings.Join] and [strings.LastIndex] on dots *)

Module StringFacts.
Import GoStr.

Lemma append_empty_r (s : string) : (s ++ EmptyString)%string = s.
Proof. induction s as [|c s IH]; simpl; [reflexivity | now rewrite IH]. Qed.

Lemma append_assoc' (a b c : string) : ((a ++ b) ++ c)%string = (a ++ (b ++ c))%string.
Proof. induction a as [|x a IH]; simpl; [reflexivity | now rewrite IH]. Qed.

Lemma dots_app (a b : string) : dots (a ++ b) = dots a + dots b.
Proof. induction a as [|c a IH]; simpl; [reflexivity | rewrite IH; lia]. Qed.

Lemma split_aux_cons s cur : exists x l, split_aux s cur = x :: l.
Proof.
  revert cur. induction s as [|c s IH]; intros cur; simpl; [eauto|].
  destruct (Ascii.eqb c dot); eauto.
Qed.

Lemma join_split_aux s : forall cur, Join (split_aux s cur) = (cur ++ s)%string.
Proof.
  induction s as [|c s IH]; intros cur; simpl.
  - now rewrite append_empty_r.
  - destruct (Ascii.eqb c dot) eqn:E.
    + apply Ascii.eqb_eq in E. subst c. unfold Join in *.
      destruct (split_aux_cons s EmptyString) as (x & l & Hs).
      simpl. rewrite Hs. rewrite <- Hs. rewrite IH. reflexivity.
    + rewrite IH, append_assoc'. reflexivity.
Qed.

Lemma length_split_aux s : forall cur, length (split_aux s cur) = S (dots s).
Proof.
  induction s as [|c s IH]; intros cur; simpl; [reflexivity|].
  destruct (Ascii.eqb c dot); simpl; rewrite IH; reflexivity.
Qed.

Lemma split_aux_pieces s : forall cur x,
  dots cur = 0 -> List.In x (split_aux s cur) -> dots x = 0.
Proof.
  induction s as [|c s IH]; intros cur x Hc Hx; simpl in Hx.
  - destruct Hx as [<-|[]]. exact Hc.
  - destruct (Ascii.eqb c dot) eqn:E.
    + destruct Hx as [<-|Hx]; [exact Hc|]. exact (IH EmptyString _ eq_refl Hx).
    + refine (IH _ _ _ Hx). rewrite dots_app. simpl. rewrite E. lia.
Qed.

(** X1: [strings.Join(strings.Split(s, "."), ".")] gives [s] back; [Split]
    gives one piece more than [s] has dots, and no piece has a dot. *)
Theorem split_join_roundtrip (s : string) :
  Join (Split s) = s /\ length (Split s) = S (dots s) /\
  (forall x, List.In x (Split s) -> dots x = 0).
Proof.
  unfold Split. split; [|split].
  - apply join_split_aux.
  - apply length_split_aux.
  - intros x Hx. exact (split_aux_pieces s EmptyString x (eq_refl 0) Hx).
Qed.

Lemma lastIndexDot_aux_shift s : forall i acc,
  lastIndexDot_aux s i acc =
  match lastIndexDot_aux s 0 None with None => acc | Some k => Some (i + k) end.
Proof.
  induction s as [|c s IH]; intros i acc; simpl; [reflexivity|].
  rewrite IH. rewrite (IH 1).
  destruct (lastIndexDot_aux s 0 None); [f_equal; lia|].
  destruct (Ascii.eqb c dot); [f_equal; lia | reflexivity].
Qed.

Lemma lastIndexDot_cons c s :
  lastIndexDot (String c s) =
  match lastIndexDot s with
  | Some k => Some (S k)
  | None => if Ascii.eqb c dot then Some 0 else None
  end.
Proof.
  unfold lastIndexDot. simpl. rewrite lastIndexDot_aux_shift. reflexivity.
Qed.

Lemma lastIndexDot_None s : lastIndexDot s = None <-> dots s = 0.
Proof.
  induction s as [|c s IH]; [split; reflexivity|].
  rewrite lastIndexDot_cons. simpl.
  destruct (lastIndexDot s) as [k|].
  - split; [discriminate|]. intros H. assert (dots s = 0) by lia.
    apply IH in H0. discriminate.
  - assert (Hd : dots s = 0) by (apply IH; reflexivity).
    destruct (Ascii.eqb c dot); split; intros H; try discriminate; try lia; reflexivity.
Qed.

Lemma lastIndexDot_Some (s : string) : forall k,
  lastIndexDot s = Some k <->
  exists a b, s = (a ++ String dot b)%string /\ dots b = 0 /\ k = String.length a.
Proof.
  induction s as [|c s IH]; intros k.
  - split; [discriminate|]. intros (a & b & E & _). destruct a; discriminate.
  - rewrite lastIndexDot_cons. split.
    + destruct (lastIndexDot s) as [k'|] eqn:Hl.
      * intros H. injection H as <-. destruct (proj1 (IH k') eq_refl) as (a & b & E & Hb & ->).
        exists (String c a), b. subst s. repeat split; auto.
      * destruct (Ascii.eqb c dot) eqn:E; [|discriminate]. intros H. injection H as <-.
        apply Ascii.eqb_eq in E. subst c. exists EmptyString, s.
        repeat split; auto. apply lastIndexDot_None. exact Hl.
    + intros (a & b & E & Hb & ->). destruct a as [|x a]; simpl in E.
      * injection E as -> ->. rewrite (proj2 (lastIndexDot_None b) Hb).
        rewrite Ascii.eqb_refl. reflexivity.
      * injection E as <- Hs. rewrite (proj2 (IH (String.length a))).
        -- reflexivity.
        -- exists a, b. auto.
Qed.

(** X2: [strings.LastIndex(s, ".")] is the length of the part before the last
    dot, and -1 exactly when [s] has no dot. *)
Theorem lastIndexDot_spec (s : string) :
  (lastIndexDot s = None <-> dots s = 0) /\
  (forall k, lastIndexDot s = Some k <->
     exists a b, s = (a ++ String dot b)%string /\ dots b = 0 /\ k = String.length a).
Proof. split; [apply lastIndexDot_None | apply lastIndexDot_Some]. Qed.


End StringFacts.

(* ------------------------------------------------------------------ *)
(** ** More on the flatteners *)

Module FlattenMore.
Import StringFacts.

Lemma multiStmts_None m : Schema.multiStmts m = None <-> lastIndexDot (MFlatName m) = None.
Proof.
  unfold Schema.multiStmts. destruct (lastIndexDot (MFlatName m)); split; congruence.
Qed.

Lemma multis_None ms :
  Schema.multisStmts ms = None <-> exists m, List.In m ms /\ lastIndexDot (MFlatName m) = None.
Proof.
  induction ms as [|m rest IH]; simpl.
  - split; [discriminate|]. intros (m & [] & _).
  - destruct (Schema.multiStmts m) as [a|] eqn:Ha.
    + assert (Hm : lastIndexDot (MFlatName m) <> None)
        by (intros E; apply multiStmts_None in E; congruence).
      destruct (Schema.multisStmts rest) as [b|] eqn:Hb.
      * split; [discriminate|]. intros (m' & [<-|Hin] & E); [contradiction|].
        assert (Some b = None) by (apply IH; eauto). discriminate.
      * split; [|reflexivity]. intros _. destruct (proj1 IH eq_refl) as (m' & H1 & H2).
        exists m'. split; [right; exact H1 | exact H2].
    + split; [|reflexivity]. intros _. exists m. split; [left; reflexivity|].
      apply multiStmts_None. exact Ha.
Qed.

Lemma fieldStmts_None field props :
  Schema.fieldStmts field props = None <-> Schema.multisStmts (SMultiFields props) = None.
Proof. unfold Schema.fieldStmts. destruct (Schema.multisStmts _); split; congruence. Qed.

Lemma entryStmts_cons parent field ty f p rest ms :
  Schema.entryStmts parent field (mkSField ty ((f, p) :: rest) ms) =
  match Schema.entryStmts field f p with
  | None => None
  | Some a =>
      match Schema.entryStmts parent field (mkSField ty rest ms) with
      | None => None
      | Some b => Some (a ++ b)
      end
  end.
Proof.
  simpl. destruct (Schema.entryStmts field f p); [|reflexivity].
  match goal with
  | |- context [?F rest] =>
      match F with cons _ => fail 1 | _ => destruct (F rest) end
  end; [|reflexivity].
  destruct (String.eqb parent EmptyString); [now rewrite <- app_assoc|].
  unfold Schema.fieldStmts. simpl.
  destruct (Schema.multisStmts ms); [now rewrite <- app_assoc | reflexivity].
Qed.

Lemma entriesOf_cons parent field ty f p rest ms :
  entriesOf parent field (mkSField ty ((f, p) :: rest) ms) =
  entriesOf field f p ++ entriesOf parent field (mkSField ty rest ms).
Proof. simpl. now rewrite app_assoc. Qed.

Lemma entry_None (props : SField) : forall parent field,
  Schema.entryStmts parent field props = None <->
  exists pa f ms m, List.In (pa, f, ms) (entriesOf parent field props) /\ pa <> EmptyString /\
    List.In m ms /\ lastIndexDot (MFlatName m) = None.
Proof.
  induction props as [ty fs ms IH] using SchemaFacts.SField_ind'.
  induction fs as [|[f p] rest IHfs]; intros parent field.
  - simpl. destruct (String.eqb parent EmptyString) eqn:Ep.
    + apply String.eqb_eq in Ep. subst parent. split; [discriminate|].
      intros (pa & f & ms' & m & [E|[]] & Hpa & _). injection E as <- _ _. contradiction.
    + destruct (Schema.fieldStmts field (mkSField ty [] ms)) eqn:Hf.
      * split; [discriminate|]. intros (pa & f & ms' & m & [E|[]] & _ & Hm & Hl).
        injection E as _ _ <-. exfalso.
        assert (Schema.fieldStmts field (mkSField ty [] ms) = None)
          by (apply fieldStmts_None, multis_None; eauto). congruence.
      * split; [|reflexivity]. intros _. apply fieldStmts_None, multis_None in Hf as (m & Hm & Hl).
        exists parent, field, ms, m. split; [left; reflexivity|].
        split; [intros E; rewrite E in Ep; discriminate|]. auto.
  - inversion IH as [|? ? IHp IHrest]; subst.
    rewrite entryStmts_cons, entriesOf_cons.
    specialize (IHfs IHrest parent field). specialize (IHp field f). simpl in IHp.
    destruct (Schema.entryStmts field f p) as [a|] eqn:Ha.
    + destruct (Schema.entryStmts parent field (mkSField ty rest ms)) as [b|] eqn:Hb.
      * split; [discriminate|]. intros (pa & f' & ms' & m & Hin & R).
        apply in_app_iff in Hin as [Hin|Hin].
        -- assert (Some a = None) by (apply IHp; exists pa, f', ms', m; auto). discriminate.
        -- assert (Some b = None) by (apply IHfs; exists pa, f', ms', m; auto). discriminate.
      * split; [|reflexivity]. intros _. destruct (proj1 IHfs eq_refl) as (pa & f' & ms' & m & Hin & R).
        exists pa, f', ms', m. split; [apply in_app_iff; right; exact Hin | exact R].
    + split; [|reflexivity]. intros _. destruct (proj1 IHp eq_refl) as (pa & f' & ms' & m & Hin & R).
      exists pa, f', ms', m. split; [apply in_app_iff; left; exact Hin | exact R].
Qed.

(** X3: [schema.Statements] panics exactly when one of the entries it visits
    has a non-empty parent and a multi-field whose flat name has no dot
    ([m.FlatName[:strings.LastIndex(m.FlatName, ".")]] with index -1);
    entries at the top level are never sliced. *)
Theorem taxonomy_panics (parent : string) (schema : list (string * SField)) :
  Schema.Statements parent schema = None <->
  exists pa f ms m, List.In (pa, f, ms) (schemaEntries parent schema) /\ pa <> EmptyString /\
    List.In m ms /\ lastIndexDot (MFlatName m) = None.
Proof.
  induction schema as [|[field props] rest IH]; simpl.
  - split; [discriminate|]. intros (pa & f & ms & m & [] & _).
  - pose proof (entry_None props parent field) as He.
    destruct (Schema.entryStmts parent field props) as [a|] eqn:Ha.
    + destruct (Schema.Statements parent rest) as [b|] eqn:Hb.
      * split; [discriminate|]. intros (pa & f & ms & m & Hin & R).
        apply in_app_iff in Hin as [Hin|Hin].
        -- assert (Some a = None) by (apply He; exists pa, f, ms, m; auto). discriminate.
        -- assert (Some b = None) by (apply IH; exists pa, f, ms, m; auto). discriminate.
      * split; [|reflexivity]. intros _. destruct (proj1 IH eq_refl) as (pa & f & ms & m & Hin & R).
        exists pa, f, ms, m. split; [apply in_app_iff; right; exact Hin | exact R].
    + split; [|reflexivity]. intros _. destruct (proj1 He eq_refl) as (pa & f & ms & m & Hin & R).
      exists pa, f, ms, m. split; [apply in_app_iff; left; exact Hin | exact R].
Qed.



End FlattenMore.

(* ------------------------------------------------------------------ *)
(** ** The published fields and the report of [main] *)

Module ReportFacts.
Import QueryFacts MatcherFacts EntryFacts GraphFacts.



Lemma NoDup_And q p : NoDup (Query.And q p).
Proof. apply NoDup_filter, NoDup_Unique. Qed.

Lemma in_PublishedFieldsIn g x :
  List.In x (PublishedFieldsIn g) <-> List.In (mkStmt x p_is_published lit_true) g.
Proof.
  unfold PublishedFieldsIn. destruct (TermFor g lit_true) as [node|] eqn:Ht.
  - apply TermFor_Some in Ht. subst node. rewrite in_Unique, in_In. split.
    + intros (s & Hs & Hb & Ho & <-). destruct s as [a b c]. unfold isPublished in Hb; simpl in *.
      apply andb_true_iff in Hb as [Hb Hc]. apply String.eqb_eq in Hb, Hc. subst. exact Hs.
    + intros H. exists (mkStmt x p_is_published lit_true). unfold isPublished; simpl.
      rewrite ?String.eqb_refl. auto.
  - split; [intros []|]. intros H. exfalso.
    apply (TermFor_None _ _ Ht). exists (mkStmt x p_is_published lit_true). simpl. auto.
Qed.

Lemma in_reportedFields g x :
  List.In x (reportedFields g) <->
  List.In (mkStmt x p_is_published lit_true) g /\
  exists t, List.In (mkStmt x p_as_type t) g /\ t <> GoStr.Quote "group"%string.
Proof.
  unfold reportedFields. rewrite in_And, in_In, in_PublishedFieldsIn. split.
  - intros [(s & Hs & Hb & _ & Hx) Hp]. split; [exact Hp|].
    destruct s as [a b c]; unfold notGroup in Hb; simpl in *. subst a.
    apply andb_true_iff in Hb as [Hb Hc]. apply String.eqb_eq in Hb. subst b.
    exists c. split; [exact Hs|]. intros E. rewrite E, String.eqb_refl in Hc. discriminate.
  - intros [Hp (t & Ht & Hne)].
    assert (Hb : notGroup (mkStmt x p_as_type t) = true).
    { unfold notGroup; cbn [Predicate Object]. rewrite String.eqb_refl. cbn [andb].
      apply negb_true_iff, String.eqb_neq. exact Hne. }
    split; [|exact Hp]. exists (mkStmt x p_as_type t). simpl. repeat split; auto.
    apply in_Out. exists (mkStmt x p_as_type t). simpl. repeat split; auto.
    apply in_PublishedFieldsIn. exact Hp.
Qed.

Lemma flat_map_nil {A B} (f : A -> list B) (l : list A) :
  flat_map f l = [] <-> forall x, List.In x l -> f x = [].
Proof.
  induction l as [|a l IH]; simpl.
  - split; [intros _ _ []|reflexivity].
  - split.
    + intros H. apply app_eq_nil in H as [H1 H2]. intros x [<-|Hx]; [exact H1|].
      apply IH; assumption.
    + intros H. rewrite (H a (or_introl eq_refl)). simpl. apply IH.
      intros x Hx. apply H. right. exact Hx.
Qed.

Lemma reportPath_nil n r : reportPath n r = [] <-> r = Ok [].
Proof. destruct r as [[|c cs]|e]; simpl; split; intros H; try discriminate; reflexivity. Qed.

Lemma in_pathsOf g f n : List.In n (pathsOf g f) <-> List.In (mkStmt f p_is_path n) g.
Proof.
  unfold pathsOf. rewrite in_Out. split.
  - intros (s & Hs & Hb & [Hf|[]] & Hn). destruct s as [a b c]; unfold byPath in Hb; simpl in *.
    apply String.eqb_eq in Hb. subst. exact Hs.
  - intros H. exists (mkStmt f p_is_path n). unfold byPath; simpl. rewrite ?String.eqb_refl. auto.
Qed.

(** Every [is:path] object of the graph [main] builds is a quoted path. *)
Lemma built_paths_quoted taxonomy authored g :
  buildGraph taxonomy authored = Some g ->
  forall s, List.In s g -> Predicate s = p_is_path -> exists P, Object s = GoStr.Quote P.
Proof.
  intros Hg s Hs Hp. unfold buildGraph in Hg.
  destruct (taxonomyStatements taxonomy) as [T|] eqn:HT; [|discriminate].
  injection Hg as <-. apply in_Deduplicate, in_app_iff in Hs as [Hs|Hs].
  - destruct (SchemaFacts.taxonomy_blocks _ _ HT s Hs) as (f & p & l & Hl & Hsl & _).
    destruct (SchemaFacts.entry_block_facts _ _ _ Hl s Hsl) as [(P & _ & HP) _]. eauto.
  - destruct (in_authored _ _ Hs) as (nm & r & Hb).
    destruct (IntegrationFacts.record_block_facts _ _ _ Hb) as ((P & _ & HP) & _). eauto.
Qed.

(** The taxonomy flattener publishes nothing. *)
Lemma schema_block_unpublished field props l :
  Schema.fieldStmts field props = Some l -> forall s, List.In s l -> Predicate s <> p_is_published.
Proof.
  intros H s Hs. unfold Schema.fieldStmts in H.
  destruct (Schema.multisStmts (SMultiFields props)) as [ms|] eqn:Hms; [|discriminate].
  injection H as <-. apply in_app_iff in Hs as [Hs|Hs].
  - apply in_flat_map in Hs as (i & _ & Hs). unfold Schema.groupStmts in Hs.
    apply EmitFacts.in_emits in Hs as [Hs _].
    SchemaFacts.list_cases Hs; SchemaFacts.unfold_preds; discriminate.
  - apply in_app_iff in Hs as [Hs|Hs].
    { EmitFacts.emit_cases Hs; SchemaFacts.list_cases Hs; SchemaFacts.unfold_preds; discriminate. }
    destruct (SchemaFacts.multis_in _ _ Hms s Hs) as (m & l' & _ & Hm & Hs').
    unfold Schema.multiStmts in Hm. destruct (lastIndexDot (MFlatName m)) as [k|]; [|discriminate].
    injection Hm as <-. EmitFacts.emit_cases Hs';
      SchemaFacts.list_cases Hs'; SchemaFacts.unfold_preds; discriminate.
Qed.

Lemma walkLoop_inv (P : list Term -> Prop) g (HP : forall q p, P (snd (step g q p))) :
  forall segs q final, P final -> P (walkLoop g q segs final).
Proof.
  induction segs as [|a segs IH]; intros q final Hf; [exact Hf|].
  rewrite walkLoop_cons. specialize (HP q a). destruct (step g q a) as [q' r].
  destruct r as [|x r']; [exact Hf|]. apply IH. exact HP.
Qed.

(** X5: [PublishedFieldsIn] returns, each once, the subjects of the
    statements [is:published "true"] of the graph, and nothing else; when
    the literal is no term of the graph it returns the empty query. *)
Theorem published_fields_spec (g : Graph) :
  NoDup (PublishedFieldsIn g) /\
  forall x, List.In x (PublishedFieldsIn g) <-> List.In (mkStmt x p_is_published lit_true) g.
Proof.
  split; [|apply in_PublishedFieldsIn].
  unfold PublishedFieldsIn. destruct (TermFor g lit_true); [apply NoDup_Unique | constructor].
Qed.

(** X6: the fields [main] reports on are, each once, the published nodes
    with some [as:type] other than ["group"]: the round trip
    [p.Out(notGroup).In(notGroup).And(p)] keeps a node of [p] exactly when
    it has such a type itself. *)
Theorem reported_fields_spec (g : Graph) :
  NoDup (reportedFields g) /\
  forall x, List.In x (reportedFields g) <->
    List.In (mkStmt x p_is_published lit_true) g /\
    exists t, List.In (mkStmt x p_as_type t) g /\ t <> GoStr.Quote "group"%string.
Proof. split; [apply NoDup_And | apply in_reportedFields]. Qed.

(** X7: in the graph [main] builds, every path of a reported field gets
    from [CandidateGraftsIn] either its candidates or the multiple-types
    error: never [not found], never a syntax error from [strconv.Unquote],
    never [no type]. *)
Theorem report_path_outcome taxonomy authored (g : Graph)
  (Hg : buildGraph taxonomy authored = Some g) (f n : Term)
  (Hf : List.In f (reportedFields g)) (Hn : List.In n (pathsOf g f)) :
  (exists res, CandidateGraftsIn g n = Ok res) \/
  (exists typs, 2 <= length typs /\
     CandidateGraftsIn g n = Err ("found multiple types: " ++ fmtStrings typs)%string).
Proof.
  apply in_pathsOf in Hn. apply in_reportedFields in Hf as (Hpub & t & Ht & _).
  destruct (built_paths_quoted _ _ _ Hg _ Hn eq_refl) as (P & HP). simpl in HP. subst n.
  unfold CandidateGraftsIn.
  rewrite (TermFor_occurs g (GoStr.Quote P))
    by (exists (mkStmt f p_is_path (GoStr.Quote P)); simpl; auto).
  rewrite QuoteFacts.Unquote_Quote.
  assert (Hin : List.In t (Query.Unique (Query.Out g byUsedType
                 (Query.And (Query.In g isPublished (Query.Out g isPublished
                    (Query.In g byPath [GoStr.Quote P]))) (Query.In g byPath [GoStr.Quote P]))))).
  { apply in_Unique, in_Out. exists (mkStmt f p_as_type t). simpl.
    split; [exact Ht|]. split; [unfold byUsedType; apply String.eqb_refl|]. split; [|reflexivity].
    apply in_published. split; [apply in_pathNodes; exact Hn | exact Hpub]. }
  destruct (Query.Unique _) as [|t1 [|t2 rest]].
  - destruct Hin.
  - left. eexists. reflexivity.
  - right. eexists. split; [|reflexivity]. simpl; lia.
Qed.

Lemma report_path_outcome_witness :
  (exists res, CandidateGraftsIn Scenario.graph1 (GoStr.Quote "registry.path") = Ok res) \/
  (exists typs, 2 <= length typs /\
     CandidateGraftsIn Scenario.graph1 (GoStr.Quote "registry.path")
     = Err ("found multiple types: " ++ fmtStrings typs)%string).
Proof.
  refine (report_path_outcome [Scenario.taxonomy1] [Scenario.authored1] Scenario.graph1 _
           (blank (Integration.hash "registry.path")) (GoStr.Quote "registry.path") _ _).
  - vm_compute. reflexivity.
  - vm_compute. left. reflexivity.
  - vm_compute. left. reflexivity.
Defined.

(** X8: with no authored documents the graph has no published node, and
    [main] prints nothing. *)
Theorem taxonomy_only_report taxonomy (g : Graph) (Hg : buildGraph taxonomy [] = Some g) :
  PublishedFieldsIn g = [] /\ mainReport g = [].
Proof.
  assert (Hp : PublishedFieldsIn g = []).
  { apply list_empty. intros x Hx. apply in_PublishedFieldsIn in Hx.
    unfold buildGraph in Hg. destruct (taxonomyStatements taxonomy) as [T|] eqn:HT; [|discriminate].
    injection Hg as <-. apply in_Deduplicate, in_app_iff in Hx as [Hx|Hx]; [|simpl in Hx; exact Hx].
    destruct (SchemaFacts.taxonomy_blocks _ _ HT _ Hx) as (f & p & l & Hl & Hsl & _).
    exact (schema_block_unpublished _ _ _ Hl _ Hsl eq_refl). }
  split; [exact Hp|]. unfold mainReport, reportedFields. rewrite Hp. reflexivity.
Qed.

Lemma taxonomy_only_report_witness :
  PublishedFieldsIn (Deduplicate Scenario1.tax1) = [] /\ mainReport (Deduplicate Scenario1.tax1) = [].
Proof.
  apply (taxonomy_only_report [Scenario.taxonomy1]). vm_compute. reflexivity.
Defined.

(** X9: [main] prints nothing exactly when every path of every reported
    field gets an empty candidate list without error; an error is always
    printed. *)
Theorem report_empty_iff (g : Graph) :
  mainReport g = [] <->
  forall f n, List.In f (reportedFields g) -> List.In n (pathsOf g f) ->
    CandidateGraftsIn g n = Ok [].
Proof.
  unfold mainReport. rewrite flat_map_nil. split.
  - intros H f n Hf Hn. specialize (H f Hf). rewrite flat_map_nil in H.
    apply (proj1 (reportPath_nil n _)). exact (H n Hn).
  - intros H f Hf. apply flat_map_nil. intros n Hn. apply (proj2 (reportPath_nil n _)). exact (H f n Hf Hn).
Qed.

(** X10: a candidate list returned by either entry point has no duplicate
    and holds only [is:path] literals of the graph. *)
Theorem graft_results_are_paths (g : Graph) :
  (forall full res, CandidateGraftsIn g full = Ok res ->
     NoDup res /\ forall p, List.In p res -> exists n, List.In (mkStmt n p_is_path p) g) /\
  (forall full typ res, CandidateGraftsFor g full typ = Ok res ->
     NoDup res /\ forall p, List.In p res -> exists n, List.In (mkStmt n p_is_path p) g).
Proof.
  assert (Hw : forall q t path, NoDup (walkMatchingPath g q t path) /\
             forall p, List.In p (walkMatchingPath g q t path) ->
               exists n, List.In (mkStmt n p_is_path p) g).
  { intros q t path. unfold walkMatchingPath. apply walkLoop_inv; [|split; [constructor | intros p []]].
    intros q' p'. unfold step. simpl. split; [apply NoDup_Unique|].
    intros x Hx. apply in_Unique, in_Out in Hx as (s & Hs & Hb & _ & <-).
    destruct s as [a b c]; unfold byPath in Hb; simpl in *. apply String.eqb_eq in Hb. subst b.
    exists a. exact Hs. }
  split.
  - intros full res H. apply graft_in_walk in H as (q & t & path & ->). apply Hw.
  - intros full typ res H. apply graft_for_walk in H as (q & t & path & ->). apply Hw.
Qed.

End ReportFacts.

(* ------------------------------------------------------------------ *)
(** ** The earlier matcher against the current one *)

Module LegacyFacts.
Import QueryFacts MatcherFacts.

Lemma sm_refl l : sameMembers l l.
Proof. intros x. reflexivity. Qed.

Lemma sm_nil l1 l2 : sameMembers l1 l2 -> (l1 = [] <-> l2 = []).
Proof.
  intros H. split; intros E; subst; apply list_empty; intros x Hx;
    [apply H in Hx | apply H in Hx]; destruct Hx.
Qed.

Lemma sm_Out g fn q1 q2 : sameMembers q1 q2 -> sameMembers (Query.Out g fn q1) (Query.Out g fn q2).
Proof.
  intros H x. rewrite !in_Out. split; intros (s & Hs & Hf & Hq & Ho); exists s;
    repeat split; auto; apply H; exact Hq.
Qed.

Lemma sm_In g fn q1 q2 : sameMembers q1 q2 -> sameMembers (Query.In g fn q1) (Query.In g fn q2).
Proof.
  intros H x. rewrite !in_In. split; intros (s & Hs & Hf & Hq & Ho); exists s;
    repeat split; auto; apply H; exact Hq.
Qed.

Lemma sm_Unique q1 q2 : sameMembers q1 q2 -> sameMembers (Query.Unique q1) (Query.Unique q2).
Proof. intros H x. rewrite !in_Unique. apply H. Qed.

Lemma NoDup_sm_length l1 l2 : NoDup l1 -> NoDup l2 -> sameMembers l1 l2 -> length l1 = length l2.
Proof.
  intros H1 H2 H. apply Nat.le_antisymm; apply NoDup_incl_length; auto; intros x Hx; apply H; exact Hx.
Qed.

(** Both loop bodies keep the nodes of [c] named [quotedName]. *)
Lemma in_legacy_level g c qn x :
  List.In x (Query.And (Query.In g byName (Query.Out g (matchingName qn) c)) c) <->
  List.In x c /\ List.In (mkStmt x p_is_name qn) g.
Proof.
  rewrite in_And, in_In. split.
  - intros [(s & Hs & Hb & Ho & <-) Hc]. split; [exact Hc|].
    apply in_Out in Ho as (s' & _ & Hm & _ & Ho').
    destruct s as [a b o], s' as [a' b' o']; unfold byName, matchingName in *; simpl in *.
    apply andb_true_iff in Hm as [_ Hm]. apply String.eqb_eq in Hb, Hm. subst. exact Hs.
  - intros [Hc Hs]. split; [|exact Hc]. exists (mkStmt x p_is_name qn). simpl.
    unfold byName; simpl. rewrite ?String.eqb_refl. repeat split; auto.
    apply in_Out. exists (mkStmt x p_is_name qn). unfold matchingName; simpl.
    rewrite ?String.eqb_refl. auto.
Qed.

Lemma in_current_level g c qn x :
  List.In x (Query.And (Query.In g (matchingName qn) (Query.Out g (matchingName qn) c)) c) <->
  List.In x c /\ List.In (mkStmt x p_is_name qn) g.
Proof.
  rewrite in_And, in_In. split.
  - intros [(s & Hs & Hm & _ & <-) Hc]. split; [exact Hc|].
    destruct s as [a b o]; unfold matchingName in Hm; simpl in *.
    apply andb_true_iff in Hm as [Hb Hm]. apply String.eqb_eq in Hb, Hm. subst. exact Hs.
  - intros [Hc Hs]. split; [|exact Hc]. exists (mkStmt x p_is_name qn).
    unfold matchingName; simpl. rewrite ?String.eqb_refl. repeat split; auto.
    apply in_Out. exists (mkStmt x p_is_name qn). unfold matchingName; simpl.
    rewrite ?String.eqb_refl. auto.
Qed.

Lemma step_same g q1 q2 p : sameMembers q1 q2 ->
  sameMembers (fst (Legacy.step g q1 p)) (fst (step g q2 p)) /\
  sameMembers (snd (Legacy.step g q1 p)) (snd (step g q2 p)).
Proof.
  intros H.
  assert (Hq : sameMembers (fst (Legacy.step g q1 p)) (fst (step g q2 p))).
  { intros x. unfold Legacy.step, step. simpl. rewrite in_legacy_level, in_current_level.
    pose proof (sm_In g hasChild _ _ H x). tauto. }
  split; [exact Hq|]. unfold Legacy.step, step in *. simpl in *.
  apply sm_Unique, sm_Out, Hq.
Qed.

Lemma walkLoop_same g : forall segs q1 q2 f1 f2,
  sameMembers q1 q2 -> sameMembers f1 f2 ->
  sameMembers (Legacy.walkLoop g q1 segs f1) (walkLoop g q2 segs f2).
Proof.
  induction segs as [|p segs IH]; intros q1 q2 f1 f2 Hq Hf; [exact Hf|].
  cbn [Legacy.walkLoop walkLoop]. destruct (step_same g q1 q2 p Hq) as [Hq' Hr].
  destruct (Legacy.step g q1 p) as [q1' r1], (step g q2 p) as [q2' r2]. simpl in Hq', Hr.
  destruct r1 as [|x1 r1'], r2 as [|x2 r2'].
  - exact Hf.
  - apply sm_nil in Hr. discriminate (proj1 Hr eq_refl).
  - apply sm_nil in Hr. discriminate (proj2 Hr eq_refl).
  - apply IH; assumption.
Qed.

Lemma seed_same g typ q1 q2 : sameMembers q1 q2 ->
  sameMembers (Legacy.seedFilter g typ q1) (seedFilter g typ q2).
Proof.
  intros H x. rewrite in_seedFilter. unfold Legacy.seedFilter. rewrite in_And, in_In.
  rewrite <- (H x). split.
  - intros [Hq (s & Hs & Hm & _ & <-)]. split; [exact Hq|].
    destruct s as [a b o]; unfold matchingType in Hm; simpl in *.
    apply andb_true_iff in Hm as [Hb Hm]. apply String.eqb_eq in Hb, Hm. subst. exact Hs.
  - intros [Hq Hs]. split; [exact Hq|]. exists (mkStmt x p_is_type typ).
    unfold matchingType; simpl. rewrite ?String.eqb_refl. repeat split; auto.
    apply in_Out. exists (mkStmt x p_is_type typ). unfold matchingType; simpl.
    rewrite ?String.eqb_refl. auto.
Qed.

Lemma walk_same g q1 q2 typ path : sameMembers q1 q2 ->
  sameMembers (Legacy.walkMatchingPath g q1 typ path) (walkMatchingPath g q2 typ path).
Proof.
  intros H. unfold Legacy.walkMatchingPath, walkMatchingPath.
  apply walkLoop_same; [apply seed_same, H | apply sm_refl].
Qed.

(** X11: the earlier [CandidateGraftsFor], given the unquoted path and type,
    fails on the same inputs as the current one given their quoted forms
    ([main]'s query mode quotes both, so [strconv.Unquote] never fails
    there); only the message of a missing type differs, and on success the
    two candidate lists have the same members. *)
Theorem legacy_grafts_for_agree (g : Graph) (full typ : string) :
  (Legacy.CandidateGraftsFor g full typ = Err "path not found" /\
   CandidateGraftsFor g (GoStr.Quote full) (GoStr.Quote typ) = Err "path not found") \/
  (Legacy.CandidateGraftsFor g full typ = Err "typ not found" /\
   CandidateGraftsFor g (GoStr.Quote full) (GoStr.Quote typ) = Err "type not found") \/
  (exists a b, Legacy.CandidateGraftsFor g full typ = Ok a /\
     CandidateGraftsFor g (GoStr.Quote full) (GoStr.Quote typ) = Ok b /\ sameMembers a b).
Proof.
  unfold Legacy.CandidateGraftsFor, CandidateGraftsFor. rewrite QuoteFacts.Unquote_Quote.
  cbv zeta. destruct (TermFor g (GoStr.Quote (GoStr.last_of (GoStr.Split full)))) as [node|].
  - destruct (TermFor g (GoStr.Quote typ)) as [ty|].
    + right. right. eexists _, _. split; [reflexivity|]. split; [reflexivity|].
      apply walk_same, sm_refl.
    + right. left. split; reflexivity.
  - left. split; reflexivity.
Qed.

(** X12: the earlier [CandidateGraftsIn] on an unquoted path and the current
    one on its quoted form report the same outcome: both [not found], both
    [no type], both the multiple-types error over type lists with the same
    members, or candidate lists with the same members. *)
Theorem legacy_grafts_in_agree (fmtTerms : list Term -> string) (g : Graph) (full : string) :
  (Legacy.CandidateGraftsIn fmtTerms g full = Err "not found" /\
   CandidateGraftsIn g (GoStr.Quote full) = Err "not found") \/
  (Legacy.CandidateGraftsIn fmtTerms g full = Err "no type" /\
   CandidateGraftsIn g (GoStr.Quote full) = Err "no type") \/
  (exists t1 t2, sameMembers t1 t2 /\ 2 <= length t1 /\ length t1 = length t2 /\
     Legacy.CandidateGraftsIn fmtTerms g full = Err ("found multiple types: " ++ fmtTerms t1)%string /\
     CandidateGraftsIn g (GoStr.Quote full) = Err ("found multiple types: " ++ fmtStrings t2)%string) \/
  (exists a b, Legacy.CandidateGraftsIn fmtTerms g full = Ok a /\
     CandidateGraftsIn g (GoStr.Quote full) = Ok b /\ sameMembers a b).
Proof.
  unfold Legacy.CandidateGraftsIn, CandidateGraftsIn. cbv zeta.
  destruct (TermFor g (GoStr.Quote full)) as [node|]; [|left; split; reflexivity].
  rewrite QuoteFacts.Unquote_Quote.
  set (q := Query.In g byPath [node]).
  set (T1 := Query.Unique (Query.Out g byUsedType
               (Query.And q (Query.In g isPublished (Query.Out g isPublished q))))).
  set (T2 := Query.Unique (Query.Out g byUsedType
               (Query.And (Query.In g isPublished (Query.Out g isPublished q)) q))).
  assert (Hsm : sameMembers T1 T2).
  { apply sm_Unique, sm_Out. intros x. rewrite !in_And. tauto. }
  assert (Hlen : length T1 = length T2) by (apply NoDup_sm_length; [apply NoDup_Unique .. | exact Hsm]).
  clearbody T1 T2.
  destruct T1 as [|a1 [|a2 r1]], T2 as [|b1 [|b2 r2]]; simpl in Hlen; try discriminate.
  - right. left. split; reflexivity.
  - right. right. right. assert (b1 = a1) as ->.
    { destruct (proj1 (Hsm a1) (or_introl eq_refl)) as [E|[]]. exact E. }
    eexists _, _. split; [reflexivity|]. split; [reflexivity|]. apply walk_same, sm_refl.
  - right. right. left. exists (a1 :: a2 :: r1), (b1 :: b2 :: r2).
    split; [exact Hsm|]. split; [simpl; lia|]. split; [simpl; lia|]. split; reflexivity.
Qed.

End LegacyFacts.

(* ------------------------------------------------------------------ *)
(** ** The hex encoding of the labels loses nothing *)

Module HexFacts.
Local Open Scope Z_scope.

Lemma hexdigit_inj (n m : Z) : 0 <= n < 16 -> 0 <= m < 16 ->
  GoStr.hexdigit n = GoStr.hexdigit m -> n = m.
Proof.
  set (L := map Z.of_nat (seq 0 16)).
  assert (Hall : forall x, 0 <= x < 16 -> List.In x L).
  { intros x Hx. apply in_map_iff. exists (Z.to_nat x). split; [lia|]. apply in_seq. lia. }
  assert (Hchk : forallb (fun x => forallb (fun y =>
             negb (Ascii.eqb (GoStr.hexdigit x) (GoStr.hexdigit y)) || Z.eqb x y) L) L = true)
    by (vm_compute; reflexivity).
  intros Hn Hm E. rewrite forallb_forall in Hchk. specialize (Hchk n (Hall n Hn)).
  rewrite forallb_forall in Hchk. specialize (Hchk m (Hall m Hm)).
  rewrite E, Ascii.eqb_refl in Hchk. simpl in Hchk. apply Z.eqb_eq. exact Hchk.
Qed.

Lemma nibbles (b : Z) : 0 <= b < 256 ->
  0 <= Z.shiftr b 4 < 16 /\ 0 <= Z.land b 15 < 16 /\ b = 16 * Z.shiftr b 4 + Z.land b 15.
Proof.
  intros Hb. rewrite Z.shiftr_div_pow2 by lia. change 15 with (Z.ones 4).
  rewrite Z.land_ones by lia. change (2 ^ 4) with 16.
  pose proof (Z.div_mod b 16 ltac:(lia)). pose proof (Z.mod_pos_bound b 16 ltac:(lia)).
  repeat split; lia.
Qed.

Lemma hex_inj (l1 : list Z) : forall l2,
  Forall (fun b => 0 <= b < 256) l1 -> Forall (fun b => 0 <= b < 256) l2 ->
  hex l1 = hex l2 -> l1 = l2.
Proof.
  induction l1 as [|a l1 IH]; intros [|b l2] H1 H2 E; simpl in E; try discriminate; [reflexivity|].
  inversion H1 as [|? ? Ha H1']; subst. inversion H2 as [|? ? Hb H2']; subst.
  injection E as Ehi Elo Erest.
  destruct (nibbles a Ha) as (Ha1 & Ha2 & Ha3). destruct (nibbles b Hb) as (Hb1 & Hb2 & Hb3).
  apply hexdigit_inj in Ehi; [|assumption..]. apply hexdigit_inj in Elo; [|assumption..].
  f_equal; [lia|]. exact (IH l2 H1' H2' Erest).
Qed.

Lemma Sum_bytes (m : list Z) : Forall (fun b => 0 <= b < 256) (SHA1.Sum m).
Proof.
  assert (Hw : forall x, Forall (fun b => 0 <= b < 256) (SHA1.word_bytes x)).
  { intros x. apply Forall_forall. intros y Hy. unfold SHA1.word_bytes in Hy.
    apply in_map_iff in Hy as (i & <- & _). change 255 with (Z.ones 8).
    rewrite Z.land_ones by lia. apply Z.mod_pos_bound. lia. }
  unfold SHA1.Sum.
  destruct (fold_left SHA1.compress _ SHA1.h_init) as [[[[h0 h1] h2] h3] h4].
  do 4 (apply Forall_app; split; [apply Hw|]). apply Hw.
Qed.

(** X13: two hash labels are equal exactly when the SHA-1 digests of the
    namespaced inputs are: the hex encoding of [fake.go] and the
    flatteners is injective on digests. *)
Theorem nsHash_collision (ns1 a ns2 b : string) :
  nsHash ns1 a = nsHash ns2 b <->
  SHA1.Sum (GoStr.bytes_of (ns1 ++ a)%string) = SHA1.Sum (GoStr.bytes_of (ns2 ++ b)%string).
Proof.
  unfold nsHash. split; [|intros E; rewrite E; reflexivity].
  apply hex_inj; apply Sum_bytes.
Qed.

End HexFacts.

(* ------------------------------------------------------------------ *)
(** ** A dotted field hangs from the group node of its parent path *)

Module ChainFacts.
Import GoStr StringFacts.







End ChainFacts.

(* ------------------------------------------------------------------ *)
(** ** [fakeField] against the package flattener *)

Module FakeFacts.

(** X15: the statements [fakeField] emits for [full] of type [typ] are
    those the package flattener emits for a document holding the single
    record [full] of type [typ] (no children, no multi-fields, no external
    type), except that [fakeField] always writes the [as:type] statement:
    for an empty [typ] it adds an [as:type ""] the flattener leaves out. *)
Theorem fakeField_is_flattened (full typ : string) :
  fakeField full typ =
  Integration.Statements EmptyString [mkField full typ [] [] EmptyString] ++
  (if String.eqb typ EmptyString
   then [mkStmt (blank (Integration.hash full)) p_as_type (GoStr.Quote EmptyString)] else []).
Proof.
  unfold fakeField, Integration.Statements. cbn [flat_map Integration.recordStmts].
  unfold Integration.fullName. cbn [String.eqb Name]. cbn [flat_map].
  unfold Integration.fieldStmts, Integration.leafStmts. cbn [MultiFields External Type_ flat_map].
  rewrite !app_nil_r. cbn [String.eqb].
  destruct (String.eqb typ EmptyString) eqn:E.
  - apply String.eqb_eq in E. subst typ. rewrite ?app_nil_l, <- !app_assoc. f_equal.
    change [mkStmt (blank (Integration.hash full)) p_as_type (GoStr.Quote "")]
      with (flat_map emit [mkStmt (blank (Integration.hash full)) p_as_type (GoStr.Quote "")]).
    rewrite <- flat_map_app. reflexivity.
  - rewrite ?app_nil_l, <- !app_assoc. f_equal. rewrite ?app_nil_r, flat_map_app.
    simpl. rewrite <- ?app_assoc, ?app_nil_r. reflexivity.
Qed.

End FakeFacts.
